(** * SnakeProto: a shallow embedding of the game core of [SnakeProto.ino]

    The sketch keeps its whole game in [uint8_t] variables: a bitmap of eight
    rows for the LED matrix, a circular buffer of packed coordinates for the
    snake, and a handful of scalars local to [GameLogicTask].  Every C value
    is a [Z] here, with the conversion to [uint8_t] written out as [to_u8]
    wherever the source stores an [int] expression into a byte.  Arrays are
    lists read with stdpp's lookup; an access outside the declared bounds, or
    a remainder by zero, has no defined result in C and is [None] here. *)

From Stdlib Require Import ZArith Lia Bool Btauto.
From stdpp Require Import base option list.

Local Open Scope Z_scope.

(** ** Macros *)

Definition SCREEN_WIDTH : Z := 8.
Definition SCREEN_HEIGHT : Z := 8.

Definition UPPER_BITS (x : Z) : Z := Z.shiftr x 4.
Definition LOWER_BITS (x : Z) : Z := Z.land x 15.
Definition TO_COORDINATES (x y : Z) : Z := Z.lor y (Z.shiftl x 4).

Definition SNAKE_LEN : Z := 64.
Definition SNAKE_NEXT (x : Z) : Z := Z.rem (x + 1) SNAKE_LEN.

Definition MAIN_MENU : Z := 1.
Definition PLAYING : Z := 2.
Definition GAME_OVER_TRANS : Z := 3.
Definition GAME_OVER_MENU : Z := 4.
Definition ENTERING_HISCORE : Z := 5.
Definition VIEWING_HISCORE : Z := 6.
Definition SETUP_GAME : Z := 7.

Definition UP : Z := 1.
Definition DOWN : Z := 2.
Definition RIGHT : Z := 10.
Definition LEFT : Z := 11.

(** ** C arithmetic on bytes *)

(** Storing an [int] into a [uint8_t] keeps it modulo 256. *)
Definition to_u8 (v : Z) : Z := v mod 256.

(** The logical negation [!v] of C, as an [int]. *)
Definition c_not (v : Z) : Z := if v =? 0 then 1 else 0.

(** The value read from the byte array [a] at index [i]. *)
Definition rd (a : list Z) (i : Z) : option Z :=
  if i <? 0 then None else a !! Z.to_nat i.

(** The array [a] after the store [a[i] = v]. *)
Definition wr (a : list Z) (i v : Z) : option (list Z) :=
  if (0 <=? i) && (i <? Z.of_nat (length a))
  then Some (<[Z.to_nat i := to_u8 v]> a) else None.

(** ** The bitmap helpers *)

(** [!!game_bitmap[LOWER_BITS(c)] & (1 << UPPER_BITS(c))]: the double
    negation applies to the row alone, the mask to its result. *)
Definition check_bitmap (game_bitmap : list Z) (coordinates : Z) : option Z :=
  row ← rd game_bitmap (LOWER_BITS coordinates);
  Some (to_u8 (Z.land (c_not (c_not row)) (Z.shiftl 1 (UPPER_BITS coordinates)))).

Definition set_bitmap_one (game_bitmap : list Z) (coordinates : Z) : option (list Z) :=
  row ← rd game_bitmap (LOWER_BITS coordinates);
  wr game_bitmap (LOWER_BITS coordinates)
     (Z.lor row (Z.shiftl 1 (UPPER_BITS coordinates))).

Definition set_bitmap_zero (game_bitmap : list Z) (coordinates : Z) : option (list Z) :=
  row ← rd game_bitmap (LOWER_BITS coordinates);
  wr game_bitmap (LOWER_BITS coordinates)
     (Z.land row (Z.lnot (Z.shiftl 1 (UPPER_BITS coordinates)))).

(** ** [place_new_head] *)

(** The statement [x == 0;] of the source compares and drops the result, so
    the branch for [x == SCREEN_WIDTH] leaves [x] as it is; the branch for
    [y] assigns. *)
Definition place_new_head (old_head direction : Z) : Z :=
  let x := to_u8 (UPPER_BITS old_head
                  + Z.b2z (direction =? RIGHT) - Z.b2z (direction =? LEFT)) in
  let x := if x >? SCREEN_WIDTH then to_u8 (SCREEN_WIDTH - 1)
           else if x =? SCREEN_WIDTH then x
           else x in
  let y := to_u8 (LOWER_BITS old_head
                  + Z.b2z (direction =? UP) - Z.b2z (direction =? DOWN)) in
  let y := if y >? SCREEN_HEIGHT then to_u8 (SCREEN_HEIGHT - 1)
           else if y =? SCREEN_HEIGHT then to_u8 0
           else y in
  to_u8 (TO_COORDINATES x y).

(** ** [place_apple] *)

(** Where a scan of the bitmap stands: the apple was written and the function
    returned, or the loop goes on with the counter [r]. *)
Inductive scan : Type :=
  | Placed (c : Z)
  | Running (r : Z).

(** The body of the inner loop at column [x] of row [y], then the columns
    left in [xs]. *)
Fixpoint scan_row (game_bitmap : list Z) (y : Z) (xs : list Z) (r : Z)
  : option scan :=
  match xs with
  | [] => Some (Running r)
  | x :: xs' =>
      r' ← (if r =? 0 then Some r
            else v ← check_bitmap game_bitmap (to_u8 (TO_COORDINATES x y));
                 Some (if c_not v =? 0 then r else to_u8 (r - 1)));
      if c_not r' =? 0 then scan_row game_bitmap y xs' r'
      else Some (Placed (to_u8 (TO_COORDINATES x y)))
  end.

Fixpoint scan_rows (game_bitmap : list Z) (ys xs : list Z) (r : Z)
  : option scan :=
  match ys with
  | [] => Some (Running r)
  | y :: ys' =>
      s ← scan_row game_bitmap y xs r;
      match s with
      | Placed c => Some (Placed c)
      | Running r' => scan_rows game_bitmap ys' xs r'
      end
  end.

(** [rand_value] is what the call of [rand()] returned.  The result is the
    content of [*apple_coordinates] when the function returns. *)
Definition place_apple (rand_value : Z) (game_bitmap : list Z)
    (apple_coordinates current_score : Z) : option Z :=
  let n := ((SCREEN_HEIGHT * SCREEN_WIDTH) - 1 - current_score) + 1 in
  if n =? 0 then None
  else
    let r := to_u8 (Z.rem rand_value n) in
    s ← scan_rows game_bitmap (seqZ 0 (SCREEN_HEIGHT + 1))
                  (seqZ 0 (SCREEN_WIDTH + 1)) r;
    match s with
    | Placed c => Some c
    | Running _ => Some apple_coordinates
    end.

(** ** The game task

    The variables of [GameLogicTask], and the global [game_bitmap].  The
    local [new_direction] is only written by the queue and read at once, so it
    is the argument of [direction_event] rather than a field. *)
Record game : Type := Game {
  state : Z;
  snake_buf : list Z;
  head_idx : Z;
  tail_idx : Z;
  current_head : Z;
  apple : Z;
  current_score : Z;
  got_apple : bool;
  direction : Z;
  body_direction : Z;
  game_bitmap : list Z
}.

(** What one pass of the loop finds when it polls: the value taken from
    [direction_queue] if there is one, whether [ulTaskNotifyTake] saw a
    notification, and what [rand()] gives should the pass call it. *)
Record inputs : Type := Inputs {
  in_direction : option Z;
  in_tick : bool;
  in_rand : Z
}.

(** The task when it starts.  The declaration
    [uint8_t head_idx, tail_idx = 0;] initialises [tail_idx] alone; like the
    other locals without an initialiser, [head_idx] starts with whatever
    [junk] holds.  [game_bitmap] is a global, hence zeroed. *)
Definition power_on (junk : game) : game :=
  {| state := SETUP_GAME;
     snake_buf := snake_buf junk;
     head_idx := head_idx junk;
     tail_idx := 0;
     current_head := current_head junk;
     apple := apple junk;
     current_score := current_score junk;
     got_apple := false;
     direction := direction junk;
     body_direction := body_direction junk;
     game_bitmap := replicate 8 0 |}.

(** [for (int i = 0; i < SCREEN_WIDTH; i++) game_bitmap[i] = 0;] over the
    indices [idxs]. *)
Fixpoint clear_rows (bitmap : list Z) (idxs : list Z) : option (list Z) :=
  match idxs with
  | [] => Some bitmap
  | i :: idxs' => bitmap' ← wr bitmap i 0; clear_rows bitmap' idxs'
  end.

(** The branch [state == SETUP_GAME]. *)
Definition setup_game (st : game) : option game :=
  g0 ← clear_rows (game_bitmap st) (seqZ 0 SCREEN_WIDTH);
  buf ← wr (snake_buf st) 0 (TO_COORDINATES 4 1);
  start ← rd buf 0;
  g1 ← set_bitmap_one g0 start;
  old_head ← rd buf (head_idx st);
  let head := place_new_head old_head UP in
  g2 ← set_bitmap_one g1 head;
  let new_apple := to_u8 (TO_COORDINATES 4 7) in
  g3 ← set_bitmap_one g2 new_apple;
  Some {| state := PLAYING;
          snake_buf := buf;
          head_idx := head_idx st;
          tail_idx := tail_idx st;
          current_head := head;
          apple := new_apple;
          current_score := 2;
          got_apple := got_apple st;
          direction := UP;
          body_direction := UP;
          game_bitmap := g3 |}.

(** The test of the reversal rule on the sums of the direction codes. *)
Definition valid_turn (body new_direction : Z) : bool :=
  negb (body + new_direction =? UP + DOWN)
  && negb (body + new_direction =? LEFT + RIGHT).

(** The block run when [xQueueReceive] delivered [new_direction]. *)
Definition direction_event (new_direction : Z) (st : game) : option game :=
  let dir := if valid_turn (body_direction st) new_direction
             then new_direction else direction st in
  g1 ← set_bitmap_zero (game_bitmap st) (current_head st);
  old_head ← rd (snake_buf st) (head_idx st);
  let head := place_new_head old_head dir in
  g2 ← set_bitmap_one g1 head;
  Some {| state := state st;
          snake_buf := snake_buf st;
          head_idx := head_idx st;
          tail_idx := tail_idx st;
          current_head := head;
          apple := apple st;
          current_score := current_score st;
          got_apple := got_apple st;
          direction := dir;
          body_direction := body_direction st;
          game_bitmap := g2 |}.

(** The block [if (current_head == apple) ...].  Its inner condition is the
    literal [true] in the source, kept here as it stands. *)
Definition apple_check (st : game) : game :=
  if current_head st =? apple st then
    if true then
      let score := to_u8 (current_score st + 1) in
      {| state := if score >=? 64 then GAME_OVER_TRANS else state st;
         snake_buf := snake_buf st;
         head_idx := head_idx st;
         tail_idx := tail_idx st;
         current_head := current_head st;
         apple := 255;
         current_score := score;
         got_apple := true;
         direction := direction st;
         body_direction := body_direction st;
         game_bitmap := game_bitmap st |}
    else
      {| state := GAME_OVER_TRANS;
         snake_buf := snake_buf st;
         head_idx := head_idx st;
         tail_idx := tail_idx st;
         current_head := current_head st;
         apple := 255;
         current_score := current_score st;
         got_apple := got_apple st;
         direction := direction st;
         body_direction := body_direction st;
         game_bitmap := game_bitmap st |}
  else st.

(** The block run when [ulTaskNotifyTake] saw a notification. *)
Definition tick (rand_value : Z) (st : game) : option game :=
  let head_idx' := to_u8 (SNAKE_NEXT (head_idx st)) in
  buf ← wr (snake_buf st) head_idx' (current_head st);
  old_head ← rd buf head_idx';
  let head := place_new_head old_head (direction st) in
  g1 ← set_bitmap_one (game_bitmap st) head;
  if negb (got_apple st) then
    tail ← rd buf (tail_idx st);
    g2 ← set_bitmap_zero g1 tail;
    Some {| state := state st;
            snake_buf := buf;
            head_idx := head_idx';
            tail_idx := to_u8 (SNAKE_NEXT (tail_idx st));
            current_head := head;
            apple := apple st;
            current_score := current_score st;
            got_apple := got_apple st;
            direction := direction st;
            body_direction := direction st;
            game_bitmap := g2 |}
  else
    new_apple ← place_apple rand_value g1 (apple st) (current_score st);
    g2 ← set_bitmap_one g1 new_apple;
    Some {| state := state st;
            snake_buf := buf;
            head_idx := head_idx';
            tail_idx := tail_idx st;
            current_head := head;
            apple := new_apple;
            current_score := current_score st;
            got_apple := false;
            direction := direction st;
            body_direction := direction st;
            game_bitmap := g2 |}.

(** The branch [state == PLAYING]: direction, then apple, then tick. *)
Definition playing (inp : inputs) (st : game) : option game :=
  st1 ← match in_direction inp with
        | Some d => direction_event d st
        | None => Some st
        end;
  let st2 := apple_check st1 in
  if in_tick inp then tick (in_rand inp) st2 else Some st2.

Definition set_state (s : Z) (st : game) : game :=
  {| state := s;
     snake_buf := snake_buf st;
     head_idx := head_idx st;
     tail_idx := tail_idx st;
     current_head := current_head st;
     apple := apple st;
     current_score := current_score st;
     got_apple := got_apple st;
     direction := direction st;
     body_direction := body_direction st;
     game_bitmap := game_bitmap st |}.

(** One pass of the [while (1)] of [GameLogicTask]. *)
Definition loop_body (inp : inputs) (st : game) : option game :=
  if state st =? MAIN_MENU then Some st
  else if state st =? SETUP_GAME then setup_game st
  else if state st =? PLAYING then playing inp st
  else if state st =? GAME_OVER_TRANS then Some (set_state GAME_OVER_MENU st)
  else Some st.

(** The passes of the loop for the inputs [inps], in order. *)
Fixpoint run (inps : list inputs) (st : game) : option game :=
  match inps with
  | [] => Some st
  | inp :: inps' => st' ← loop_body inp st; run inps' st'
  end.

(** The task from its start: the locals as declared, then the loop. *)
Definition GameLogicTask (junk : game) (inps : list inputs) : option game :=
  run inps (power_on junk).

(** Three kinds of pass: nothing pending, a tick, a button. *)
Definition idle : inputs := Inputs None false 0.
Definition ticking (rand_value : Z) : inputs := Inputs None true rand_value.
Definition pressing (d : Z) : inputs := Inputs (Some d) false 0.

(** A start where every uninitialised local happens to be zero. *)
Definition zeroed : game :=
  Game 0 (replicate 64 0) 0 0 0 0 0 false 0 0 (replicate 8 0).

(** A start where [head_idx] happens to hold 5. *)
Definition head_idx_five : game :=
  Game 0 (replicate 64 0) 5 0 0 0 0 false 0 0 (replicate 8 0).

(** Passes of the loop given as the ticks and, before each, the number of
    passes that found nothing pending. *)
Definition passes (gaps : list (nat * Z)) : list inputs :=
  flat_map (fun gap => replicate (fst gap) idle ++ [ticking (snd gap)]) gaps.

(** Setup, five ticks up to the apple, a press of RIGHT. *)
Definition off_the_apple : list inputs :=
  [idle; ticking 0; ticking 0; ticking 0; ticking 0; ticking 0; pressing RIGHT].

(** Setup, a press of RIGHT, four ticks. *)
Definition to_the_right_edge : list inputs :=
  [idle; pressing RIGHT; ticking 0; ticking 0; ticking 0; ticking 0].

(** Setup, then the first apple at (4,7), three more apples dropped straight
    ahead of the snake, and a turn right, down and left that points the head
    back at its own body. *)
Definition into_own_body : list inputs :=
  [idle; ticking 0; ticking 0; ticking 0; ticking 0; ticking 0;
   ticking 13; ticking 0; ticking 29; ticking 0; ticking 45; ticking 0;
   ticking 0; pressing RIGHT; ticking 0; pressing DOWN; ticking 0;
   pressing LEFT].

(** The game right after the setup, and after five further ticks, both from
    the start [zeroed]. *)
Definition after_setup : game :=
  Eval vm_compute in default zeroed (GameLogicTask zeroed [idle]).

Definition at_the_apple : game :=
  Eval vm_compute in
    default zeroed (GameLogicTask zeroed (idle :: replicate 5 (ticking 0))).

(** Setup, the apple at (4,7) taken, a turn into row 0, then round and round
    that row: with [rand()] at 0 every new apple lands on (0,0), and the
    snake takes one every eight ticks, sixty in all. *)
Definition to_the_last_apple : list inputs :=
  idle :: replicate 7 (ticking 0)
  ++ pressing LEFT :: replicate 483 (ticking 0).

(** A start where [head_idx] happens to hold 63. *)
Definition head_idx_last : game :=
  Game 0 (replicate 64 0) 63 0 0 0 0 false 0 0 (replicate 8 0).

(** Setup, up column 0, a turn right in row 7, on to the apple at (4,7). *)
Definition over_the_top : list inputs :=
  idle :: replicate 7 (ticking 0)
  ++ pressing RIGHT :: replicate 3 (ticking 0).

(** ** The display task *)

(** A call [lc.setRow(addr, row, value)] as the LED driver receives it. *)
Record setRow : Type := SetRow { sr_addr : Z; sr_row : Z; sr_value : Z }.

(** [for (int i = 0; i < SCREEN_WIDTH; i++) lc.setRow(0, i, game_bitmap[i]);]
    over the indices [idxs]: the calls made, in order. *)
Fixpoint display_rows (game_bitmap : list Z) (idxs : list Z)
  : option (list setRow) :=
  match idxs with
  | [] => Some []
  | i :: idxs' =>
      v ← rd game_bitmap i;
      calls ← display_rows game_bitmap idxs';
      Some (SetRow 0 i v :: calls)
  end.

(** One pass of the [while (1)] of [DisplayGameTask]. *)
Definition DisplayGameTask (game_bitmap : list Z) : option (list setRow) :=
  display_rows game_bitmap (seqZ 0 SCREEN_WIDTH).

(** ** The button tasks *)

Definition DEBOUNCE_MS : Z := 200.

(** Arithmetic on [unsigned long], 32 bits wide on this target. *)
Definition to_u32 (v : Z) : Z := v mod 2 ^ 32.

(** One pass of the loop of a button task, the four of which differ in pin
    and direction only: [pin] is what [digitalRead] returns, [now] what
    [millis()] returns; the result is the value handed to [xQueueSend], if
    any.  [last_time_pressed] is set when the task starts and never
    assigned again. *)
Definition button_pass (direction last_time_pressed pin now : Z) : option Z :=
  if negb (c_not pin =? 0)
     && (to_u32 (now - last_time_pressed) >? DEBOUNCE_MS)
  then Some direction else None.

Definition SnakeButtonPressUp : Z -> Z -> Z -> option Z := button_pass UP.
Definition SnakeButtonPressLeft : Z -> Z -> Z -> option Z := button_pass LEFT.
Definition SnakeButtonPressRight : Z -> Z -> Z -> option Z := button_pass RIGHT.
Definition SnakeButtonPressDown : Z -> Z -> Z -> option Z := button_pass DOWN.

(** The values a button task sends over its passes, given what each pass
    reads as pin level and time; [start] is [millis()] at the task's start. *)
Definition button_task (pass : Z -> Z -> Z -> option Z) (start : Z)
    (polls : list (Z * Z)) : list Z :=
  omap (fun poll => pass start (fst poll) (snd poll)) polls.

(** The game after the setup and one tick, from the start [zeroed]. *)
Definition after_first_tick : game :=
  Eval vm_compute in default zeroed (GameLogicTask zeroed [idle; ticking 0]).

(** A game one apple short of the full score, the head on the apple. *)
Definition last_apple : game :=
  Game PLAYING (replicate 64 17) 61 0 34 34 63 false UP UP (replicate 8 255).

(** ** Vocabulary of the properties *)

(** The bit that [set_bitmap_one] sets and [set_bitmap_zero] clears for the
    cell [c], and that the display shows: bit [UPPER_BITS c] of row
    [LOWER_BITS c]. *)
Definition cell_bit (bitmap : list Z) (c : Z) : bool :=
  match rd bitmap (LOWER_BITS c) with
  | Some row => Z.testbit row (UPPER_BITS c)
  | None => false
  end.

Definition is_direction (d : Z) : Prop :=
  d = UP \/ d = DOWN \/ d = RIGHT \/ d = LEFT.

(** UP and DOWN, LEFT and RIGHT form the two pairs of opposites. *)
Definition opposite (d : Z) : Z :=
  if d =? UP then DOWN
  else if d =? DOWN then UP
  else if d =? RIGHT then LEFT
  else if d =? LEFT then RIGHT
  else d.

(** The step the documentation of [place_new_head] describes: one cell in
    the direction, each component taken modulo the screen size. *)
Definition wrapped_head (old_head direction : Z) : Z :=
  TO_COORDINATES
    ((UPPER_BITS old_head + Z.b2z (direction =? RIGHT)
      - Z.b2z (direction =? LEFT)) mod SCREEN_WIDTH)
    ((LOWER_BITS old_head + Z.b2z (direction =? UP)
      - Z.b2z (direction =? DOWN)) mod SCREEN_HEIGHT).

(** The committed and the pending direction are direction codes, and the
    pending one is not the reverse of the committed one. *)
Definition heading (st : game) : Prop :=
  is_direction (direction st) /\ is_direction (body_direction st)
  /\ direction st <> opposite (body_direction st).

(** The arrays have their declared sizes, the two indices point into the
    buffer, and the provisional head lies in one of the eight rows. *)
Record wf (st : game) : Prop := Wf {
  wf_bitmap : length (game_bitmap st) = 8%nat;
  wf_buf : length (snake_buf st) = 64%nat;
  wf_head_idx : 0 <= head_idx st < 64;
  wf_tail_idx : 0 <= tail_idx st < 64;
  wf_head_row : LOWER_BITS (current_head st) < 8
}.

(** Number of cells stored from [tail_idx] to [head_idx], circularly. *)
Definition body_length (st : game) : Z :=
  (head_idx st - tail_idx st) mod SNAKE_LEN + 1.

(** The cells stored from [tail_idx] to [head_idx], tail first. *)
Definition live_cells (st : game) : list Z :=
  omap (fun k => rd (snake_buf st) ((tail_idx st + k) mod SNAKE_LEN))
       (seqZ 0 (body_length st)).

(** The bit of every cell of the 8 by 8 screen is set exactly when the cell
    is stored in the live range of the buffer, is the provisional head, or is
    the apple. *)
Definition grid_consistent (st : game) : Prop :=
  forall x y, 0 <= x < 8 -> 0 <= y < 8 ->
    cell_bit (game_bitmap st) (TO_COORDINATES x y) = true
    <-> (TO_COORDINATES x y ∈ live_cells st
         \/ TO_COORDINATES x y = current_head st
         \/ TO_COORDINATES x y = apple st).

(** [grid_consistent] as a check over the 64 cells. *)
Definition grid_consistentb (st : game) : bool :=
  forallb (fun x => forallb (fun y =>
    let c := TO_COORDINATES x y in
    Bool.eqb (cell_bit (game_bitmap st) c)
             (bool_decide (c ∈ live_cells st)
              || (c =? current_head st) || (c =? apple st)))
    (seqZ 0 8)) (seqZ 0 8).

(** The snake of one stored cell climbing column 4, with its stored cell in
    row [1 + k] and its provisional head in row [2 + k]. *)
Record climbing (k : Z) (st : game) : Prop := Climbing {
  cl_wf : wf st;
  cl_state : state st = PLAYING;
  cl_flag : got_apple st = false;
  cl_idx : tail_idx st = head_idx st;
  cl_dir : direction st = UP;
  cl_apple : apple st = TO_COORDINATES 4 7;
  cl_score : current_score st = 2;
  cl_head : current_head st = TO_COORDINATES 4 (2 + k);
  cl_body : rd (snake_buf st) (head_idx st) = Some (TO_COORDINATES 4 (1 + k))
}.

(** The [len] cells stored from index [t] on all lie in the eight rows. *)
Definition rows_ok (buf : list Z) (t len : Z) : Prop :=
  forall k, 0 <= k < len ->
    exists c, rd buf ((t + k) mod SNAKE_LEN) = Some c /\ LOWER_BITS c < 8.

(** What holds of the game while it is played, from a start whose
    [head_idx] is zero. *)
Record playable (st : game) : Prop := Playable {
  pl_wf : wf st;
  pl_rows : rows_ok (snake_buf st) (tail_idx st) (body_length st);
  pl_score : body_length st + (if got_apple st then 2 else 1) = current_score st;
  pl_bound : current_score st <= 64;
  pl_playing : state st = PLAYING -> current_score st <= 63;
  pl_eaten : got_apple st = true -> apple st = 255;
  pl_direction : is_direction (direction st);
  pl_body_direction : is_direction (body_direction st)
}.

(** The values the button tasks send, and the range of [rand()]. *)
Definition inputs_ok (inp : inputs) : Prop :=
  match in_direction inp with
  | Some d => is_direction d
  | None => True
  end /\ 0 <= in_rand inp.

(** Where the task stands between two passes: about to run the setup from
    a start with [head_idx] at zero, or past the setup and, as long as it is
    in Playing, playable. *)
Definition on_course (st : game) : Prop :=
  (exists junk, st = power_on junk /\ head_idx junk = 0
                /\ length (snake_buf junk) = 64%nat)
  \/ (state st <> SETUP_GAME /\ (state st = PLAYING -> playable st)).

(** Checks run over all cells of the screen. *)
Definition coords_ok (x y : Z) : bool :=
  (UPPER_BITS (to_u8 (TO_COORDINATES x y)) =? x)
  && (LOWER_BITS (to_u8 (TO_COORDINATES x y)) =? y)
  && (to_u8 (TO_COORDINATES x y) =? TO_COORDINATES x y).

Definition head_agrees (d x y : Z) : bool :=
  ((x =? 7) && (d =? RIGHT))
  || (place_new_head (TO_COORDINATES x y) d =? wrapped_head (TO_COORDINATES x y) d).

(** * Properties *)

(** ** Helpers *)

(** Case analysis on a row offset known to lie between 0 and 4. *)
Ltac rows_below_five k :=
  let H := fresh in
  assert (H : k = 0 \/ k = 1 \/ k = 2 \/ k = 3 \/ k = 4) by lia;
  destruct H as [-> | [-> | [-> | [-> | ->]]]].

(** Closed side conditions, by evaluation. *)
Ltac evaluated :=
  vm_compute; repeat split; first [reflexivity | discriminate].

(** Well-formedness of a game given in full, by evaluation. *)
Ltac wf_by_evaluation :=
  constructor; vm_compute;
  first [reflexivity | split; [discriminate | reflexivity]].

Lemma range_check (p : Z -> bool) (n : Z) :
  forallb p (seqZ 0 n) = true -> forall x, 0 <= x < n -> p x = true.
Proof.
  intros Hall x Hx. rewrite forallb_forall in Hall. apply Hall.
  apply list_elem_of_In, elem_of_seqZ. lia.
Qed.

Lemma c_not_not (v : Z) : c_not (c_not v) = if v =? 0 then 0 else 1.
Proof. unfold c_not. destruct (v =? 0); reflexivity. Qed.

Lemma land_1_shiftl (u : Z) : Z.land 1 (Z.shiftl 1 u) = if u =? 0 then 1 else 0.
Proof.
  destruct (Z.eqb_spec u 0) as [->|Hu]; [reflexivity|].
  apply Z.bits_inj'. intros i Hi.
  rewrite Z.land_spec, Z.bits_0.
  destruct (Z.eq_dec i 0) as [->|Hi0].
  - destruct (Z.lt_ge_cases u 0).
    + rewrite Z.shiftl_spec by lia.
      rewrite (Z.bits_above_log2 1 (0 - u)); [reflexivity|lia|simpl; lia].
    + rewrite Z.shiftl_spec by lia. rewrite (Z.testbit_neg_r _ (0 - u)) by lia. btauto.
  - rewrite (Z.bits_above_log2 1 i); [reflexivity|lia|simpl; lia].
Qed.

(** ** Reading and writing the arrays *)

Lemma rd_Some_lt (a : list Z) (i v : Z) :
  rd a i = Some v -> 0 <= i < Z.of_nat (length a).
Proof.
  unfold rd. destruct (Z.ltb_spec i 0); [discriminate|].
  intros Hl. apply lookup_lt_Some in Hl. lia.
Qed.

Lemma rd_defined (a : list Z) (i : Z) :
  0 <= i < Z.of_nat (length a) -> exists v, rd a i = Some v.
Proof.
  intros Hi. unfold rd. destruct (Z.ltb_spec i 0); [lia|].
  destruct (lookup_lt_is_Some_2 a (Z.to_nat i)) as [v Hv]; [lia|eauto].
Qed.

Lemma wr_Some (a : list Z) (i v : Z) :
  0 <= i < Z.of_nat (length a) ->
  wr a i v = Some (<[Z.to_nat i := to_u8 v]> a).
Proof.
  intros Hi. unfold wr.
  destruct (Z.leb_spec 0 i); [|lia]. destruct (Z.ltb_spec i (Z.of_nat (length a))); [|lia].
  reflexivity.
Qed.

Lemma wr_inv (a a' : list Z) (i v : Z) :
  wr a i v = Some a' ->
  0 <= i < Z.of_nat (length a) /\ a' = <[Z.to_nat i := to_u8 v]> a.
Proof.
  unfold wr.
  destruct (Z.leb_spec 0 i), (Z.ltb_spec i (Z.of_nat (length a))); simpl;
    intros [= <-] || discriminate. split; [lia|reflexivity].
Qed.

Lemma wr_length (a a' : list Z) (i v : Z) :
  wr a i v = Some a' -> length a' = length a.
Proof. intros [_ ->]%wr_inv. apply length_insert. Qed.

Lemma rd_wr_eq (a a' : list Z) (i v : Z) :
  wr a i v = Some a' -> rd a' i = Some (to_u8 v).
Proof.
  intros [Hi ->]%wr_inv. unfold rd. destruct (Z.ltb_spec i 0); [lia|].
  apply list_lookup_insert_eq. lia.
Qed.

Lemma rd_wr_ne (a a' : list Z) (i j v : Z) :
  wr a i v = Some a' -> j <> i -> rd a' j = rd a j.
Proof.
  intros [Hi ->]%wr_inv Hne. unfold rd. destruct (Z.ltb_spec j 0); [reflexivity|].
  apply list_lookup_insert_ne. lia.
Qed.

Lemma LOWER_BITS_range (c : Z) : 0 <= LOWER_BITS c < 16.
Proof.
  unfold LOWER_BITS. change 15 with (Z.ones 4). rewrite Z.land_ones by lia.
  apply Z.mod_pos_bound. reflexivity.
Qed.

(** ** [check_bitmap] *)

Lemma check_bitmap_value (g : list Z) (c row : Z) :
  rd g (LOWER_BITS c) = Some row ->
  check_bitmap g c =
    Some (if row =? 0 then 0 else if UPPER_BITS c =? 0 then 1 else 0).
Proof.
  intros Hrow. unfold check_bitmap. rewrite Hrow. simpl.
  rewrite c_not_not. destruct (row =? 0).
  - rewrite Z.land_0_l. reflexivity.
  - rewrite land_1_shiftl. destruct (UPPER_BITS c =? 0); reflexivity.
Qed.

(** C9: [check_bitmap] gives a nonzero value exactly when the x-component
    of the coordinate is zero and the row named by its y-component is
    nonzero; the negations apply to the row before the mask does.  So for a
    coordinate with a nonzero x-component the result is 0 whatever bits the
    row holds.  The function returns whenever the row exists; a coordinate
    whose y-component names no row of the bitmap has no row to read and no
    result. *)
Theorem check_bitmap_row_and_mask (g : list Z) (c : Z) :
  ((exists v, check_bitmap g c = Some v /\ v <> 0) <->
   (UPPER_BITS c = 0 /\
    exists row, rd g (LOWER_BITS c) = Some row /\ row <> 0))
  /\ (forall row, rd g (LOWER_BITS c) = Some row ->
      UPPER_BITS c <> 0 -> check_bitmap g c = Some 0)
  /\ (forall row, rd g (LOWER_BITS c) = Some row ->
      exists v, check_bitmap g c = Some v).
Proof.
  split; [|split; [|intros row Hrow; rewrite (check_bitmap_value _ _ _ Hrow); eauto]].
  - split.
    + intros (v & Hv & Hnz). destruct (rd g (LOWER_BITS c)) as [row|] eqn:Hrow.
      * rewrite (check_bitmap_value _ _ _ Hrow) in Hv.
        destruct (Z.eqb_spec row 0); [congruence|].
        destruct (Z.eqb_spec (UPPER_BITS c) 0); [eauto|congruence].
      * unfold check_bitmap in Hv. rewrite Hrow in Hv. discriminate.
    + intros (Hx & row & Hrow & Hnz). exists 1. split; [|lia].
      rewrite (check_bitmap_value _ _ _ Hrow), Hx.
      destruct (Z.eqb_spec row 0); [contradiction|reflexivity].
  - intros row Hrow Hx. rewrite (check_bitmap_value _ _ _ Hrow).
    destruct (row =? 0); [reflexivity|].
    destruct (Z.eqb_spec (UPPER_BITS c) 0); [contradiction|reflexivity].
Qed.

(** ** [set_bitmap_one] and [set_bitmap_zero] *)

Lemma to_u8_bits (v i : Z) :
  Z.testbit (to_u8 v) i = (i <? 8) && Z.testbit v i.
Proof. unfold to_u8. change 256 with (2 ^ 8). apply Z.testbit_mod_pow2. lia. Qed.

Lemma set_one_twice (row m : Z) :
  to_u8 (Z.lor (to_u8 (Z.lor row m)) m) = to_u8 (Z.lor row m).
Proof.
  apply Z.bits_inj'. intros i _.
  rewrite !to_u8_bits, !Z.lor_spec, to_u8_bits, Z.lor_spec. btauto.
Qed.

Lemma set_zero_twice (row m : Z) :
  to_u8 (Z.land (to_u8 (Z.land row m)) m) = to_u8 (Z.land row m).
Proof.
  apply Z.bits_inj'. intros i _.
  rewrite !to_u8_bits, !Z.land_spec, to_u8_bits, Z.land_spec. btauto.
Qed.

Lemma set_bitmap_one_Some (g : list Z) (c row : Z) :
  rd g (LOWER_BITS c) = Some row ->
  set_bitmap_one g c =
    Some (<[Z.to_nat (LOWER_BITS c) :=
             to_u8 (Z.lor row (Z.shiftl 1 (UPPER_BITS c)))]> g).
Proof.
  intros Hrow. unfold set_bitmap_one. rewrite Hrow. simpl.
  apply wr_Some. eapply rd_Some_lt, Hrow.
Qed.

Lemma set_bitmap_zero_Some (g : list Z) (c row : Z) :
  rd g (LOWER_BITS c) = Some row ->
  set_bitmap_zero g c =
    Some (<[Z.to_nat (LOWER_BITS c) :=
             to_u8 (Z.land row (Z.lnot (Z.shiftl 1 (UPPER_BITS c))))]> g).
Proof.
  intros Hrow. unfold set_bitmap_zero. rewrite Hrow. simpl.
  apply wr_Some. eapply rd_Some_lt, Hrow.
Qed.

Lemma rd_insert_eq (a : list Z) (i v : Z) :
  0 <= i < Z.of_nat (length a) -> rd (<[Z.to_nat i := v]> a) i = Some v.
Proof.
  intros Hi. unfold rd. destruct (Z.ltb_spec i 0); [lia|].
  apply list_lookup_insert_eq. lia.
Qed.

Lemma rd_insert_ne (a : list Z) (i j v : Z) :
  0 <= i -> j <> i -> rd (<[Z.to_nat i := v]> a) j = rd a j.
Proof.
  intros Hi Hne. unfold rd. destruct (Z.ltb_spec j 0); [reflexivity|].
  apply list_lookup_insert_ne. lia.
Qed.

(** C10: for a coordinate whose y-component is below 8, [set_bitmap_one]
    and [set_bitmap_zero] return a bitmap of eight rows that differs from the
    old one in the row of that y-component at most, and applying either a
    second time changes nothing more. *)
Theorem set_bitmap_row_frame_idempotent (g : list Z) (c : Z) :
  length g = 8%nat -> LOWER_BITS c < 8 ->
  (exists g1, set_bitmap_one g c = Some g1
      /\ length g1 = 8%nat
      /\ (forall i, i <> LOWER_BITS c -> rd g1 i = rd g i)
      /\ set_bitmap_one g1 c = Some g1)
  /\ (exists g0, set_bitmap_zero g c = Some g0
      /\ length g0 = 8%nat
      /\ (forall i, i <> LOWER_BITS c -> rd g0 i = rd g i)
      /\ set_bitmap_zero g0 c = Some g0).
Proof.
  intros Hlen Hy. pose proof (LOWER_BITS_range c) as Hr.
  assert (Hin : 0 <= LOWER_BITS c < Z.of_nat (length g)) by lia.
  destruct (rd_defined g _ Hin) as [row Hrow].
  split; eexists; (split; [eauto using set_bitmap_one_Some, set_bitmap_zero_Some|]).
  - split; [by rewrite length_insert|]. split.
    + intros i Hi. apply rd_insert_ne; lia.
    + erewrite set_bitmap_one_Some by (apply rd_insert_eq; lia).
      by rewrite list_insert_insert_eq, set_one_twice.
  - split; [by rewrite length_insert|]. split.
    + intros i Hi. apply rd_insert_ne; lia.
    + erewrite set_bitmap_zero_Some by (apply rd_insert_eq; lia).
      by rewrite list_insert_insert_eq, set_zero_twice.
Qed.

Lemma check_bitmap_row_and_mask_witness :
  ((exists v, check_bitmap [0; 16; 16; 0; 0; 0; 0; 16] 1 = Some v /\ v <> 0) <->
   (UPPER_BITS 1 = 0 /\
    exists row, rd [0; 16; 16; 0; 0; 0; 0; 16] (LOWER_BITS 1) = Some row
                /\ row <> 0))
  /\ check_bitmap [0; 16; 16; 0; 0; 0; 0; 16] (TO_COORDINATES 4 1) = Some 0.
Proof.
  split.
  - apply (check_bitmap_row_and_mask [0; 16; 16; 0; 0; 0; 0; 16] 1).
  - apply (proj1 (proj2 (check_bitmap_row_and_mask [0; 16; 16; 0; 0; 0; 0; 16]
                           (TO_COORDINATES 4 1))) 16).
    + reflexivity.
    + discriminate.
Defined.

Lemma set_bitmap_row_frame_idempotent_witness :
  (exists g1, set_bitmap_one [0; 16; 16; 0; 0; 0; 0; 16] (TO_COORDINATES 5 2) = Some g1
      /\ length g1 = 8%nat
      /\ (forall i, i <> LOWER_BITS (TO_COORDINATES 5 2) ->
          rd g1 i = rd [0; 16; 16; 0; 0; 0; 0; 16] i)
      /\ set_bitmap_one g1 (TO_COORDINATES 5 2) = Some g1)
  /\ (exists g0, set_bitmap_zero [0; 16; 16; 0; 0; 0; 0; 16] (TO_COORDINATES 5 2) = Some g0
      /\ length g0 = 8%nat
      /\ (forall i, i <> LOWER_BITS (TO_COORDINATES 5 2) ->
          rd g0 i = rd [0; 16; 16; 0; 0; 0; 0; 16] i)
      /\ set_bitmap_zero g0 (TO_COORDINATES 5 2) = Some g0).
Proof.
  apply (set_bitmap_row_frame_idempotent [0; 16; 16; 0; 0; 0; 0; 16]
           (TO_COORDINATES 5 2)).
  - reflexivity.
  - reflexivity.
Defined.

(** ** Packed coordinates *)

Lemma coords_unpack (x y : Z) :
  0 <= x < 16 -> 0 <= y < 16 ->
  UPPER_BITS (to_u8 (TO_COORDINATES x y)) = x
  /\ LOWER_BITS (to_u8 (TO_COORDINATES x y)) = y
  /\ to_u8 (TO_COORDINATES x y) = TO_COORDINATES x y.
Proof.
  intros Hx Hy.
  assert (Hall : forallb (fun x => forallb (coords_ok x) (seqZ 0 16)) (seqZ 0 16) = true)
    by (vm_compute; reflexivity).
  pose proof (range_check _ _ (range_check _ _ Hall x Hx) y Hy) as Hok.
  unfold coords_ok in Hok. apply andb_prop in Hok as [Hok H3].
  apply andb_prop in Hok as [H1 H2]. lia.
Qed.

(** ** [place_new_head] *)

(** X7: apart from a head in column 7 moving RIGHT, every head on the screen
    moves to the cell the modular wrap gives. *)
Lemma place_new_head_wraps_elsewhere (x y d : Z) :
  0 <= x < 8 -> 0 <= y < 8 -> is_direction d ->
  ~ (x = 7 /\ d = RIGHT) ->
  place_new_head (TO_COORDINATES x y) d = wrapped_head (TO_COORDINATES x y) d.
Proof.
  intros Hx Hy Hd Hne.
  assert (Hall : forallb (fun d => forallb (fun x => forallb (head_agrees d x)
                   (seqZ 0 8)) (seqZ 0 8)) [UP; DOWN; RIGHT; LEFT] = true)
    by (vm_compute; reflexivity).
  rewrite forallb_forall in Hall.
  assert (Hin : In d [UP; DOWN; RIGHT; LEFT])
    by (unfold is_direction in Hd; simpl; intuition).
  pose proof (range_check _ _ (range_check _ _ (Hall d Hin) x Hx) y Hy) as Hok.
  unfold head_agrees in Hok. apply orb_prop in Hok as [Hok|Hok].
  - apply andb_prop in Hok as [H1 H2]. exfalso. apply Hne. lia.
  - lia.
Qed.

Lemma place_new_head_wraps_elsewhere_witness :
  place_new_head (TO_COORDINATES 0 3) LEFT = wrapped_head (TO_COORDINATES 0 3) LEFT.
Proof.
  apply (place_new_head_wraps_elsewhere 0 3 LEFT); [lia|lia| |].
  - right. right. right. reflexivity.
  - intros [H _]. discriminate H.
Defined.

(** A head in column 7 moving RIGHT comes out in column 8, in every row. *)
Lemma place_new_head_right_column (y : Z) :
  0 <= y < 8 ->
  place_new_head (TO_COORDINATES 7 y) RIGHT = TO_COORDINATES 8 y
  /\ UPPER_BITS (place_new_head (TO_COORDINATES 7 y) RIGHT) = 8.
Proof.
  intros Hy.
  assert (Hall : forallb (fun y =>
            (place_new_head (TO_COORDINATES 7 y) RIGHT =? TO_COORDINATES 8 y)
            && (UPPER_BITS (place_new_head (TO_COORDINATES 7 y) RIGHT) =? 8))
            (seqZ 0 8) = true) by (vm_compute; reflexivity).
  pose proof (range_check _ _ Hall y Hy) as Hok. simpl in Hok.
  apply andb_prop in Hok as [H1 H2]. lia.
Qed.

(** C1: the claim asks that a head in column 7 moving RIGHT comes out in
    column 0.  Evaluated on the cell (7,0), [place_new_head] returns column 8:
    the branch for [x == SCREEN_WIDTH] compares where it should assign.  The
    wrap the documentation describes gives (0,0). *)
Theorem place_new_head_right_edge :
  place_new_head (TO_COORDINATES 7 0) RIGHT = TO_COORDINATES 8 0
  /\ UPPER_BITS (place_new_head (TO_COORDINATES 7 0) RIGHT) = 8
  /\ wrapped_head (TO_COORDINATES 7 0) RIGHT = TO_COORDINATES 0 0.
Proof. vm_compute. auto. Qed.

Lemma to_u8_range (v : Z) : 0 <= to_u8 v < 256.
Proof. unfold to_u8. apply Z.mod_pos_bound. reflexivity. Qed.

(** Whatever the old head and the direction, the new head lies in one of the
    eight rows, and in one of the columns 0 to 8. *)
Lemma place_new_head_range (old_head d : Z) :
  0 <= LOWER_BITS (place_new_head old_head d) < 8
  /\ 0 <= UPPER_BITS (place_new_head old_head d) <= 8.
Proof.
  unfold place_new_head.
  set (x0 := to_u8 (UPPER_BITS old_head + _ - _)).
  set (y0 := to_u8 (LOWER_BITS old_head + _ - _)).
  pose proof (to_u8_range (UPPER_BITS old_head + Z.b2z (d =? RIGHT) - Z.b2z (d =? LEFT))) as Hx0.
  pose proof (to_u8_range (LOWER_BITS old_head + Z.b2z (d =? UP) - Z.b2z (d =? DOWN))) as Hy0.
  fold x0 in Hx0. fold y0 in Hy0. clearbody x0 y0.
  set (x := if x0 >? SCREEN_WIDTH then _ else _).
  set (y := if y0 >? SCREEN_HEIGHT then _ else _).
  assert (Hx : 0 <= x <= 8).
  { subst x. unfold SCREEN_WIDTH. destruct (Z.gtb_spec x0 8); [vm_compute; split; discriminate|].
    destruct (x0 =? 8); lia. }
  assert (Hy : 0 <= y < 8).
  { subst y. unfold SCREEN_HEIGHT. destruct (Z.gtb_spec y0 8); [vm_compute; split; [discriminate|reflexivity]|].
    destruct (Z.eqb_spec y0 8); [vm_compute; split; [discriminate|reflexivity]|lia]. }
  clearbody x y.
  destruct (coords_unpack x y) as (Hu & Hl & _); lia.
Qed.

(** ** The bit of a cell *)

Lemma shiftl_1_bits (u i : Z) :
  0 <= u -> 0 <= i -> Z.testbit (Z.shiftl 1 u) i = (i =? u).
Proof.
  intros Hu Hi. rewrite Z.shiftl_spec by lia.
  destruct (Z.eqb_spec i u) as [->|Hne].
  - by rewrite Z.sub_diag.
  - destruct (Z.lt_ge_cases i u).
    + apply Z.testbit_neg_r. lia.
    + apply Z.bits_above_log2; simpl; lia.
Qed.

Lemma cell_bit_set_one (g g1 : list Z) (c : Z) :
  0 <= UPPER_BITS c < 8 -> set_bitmap_one g c = Some g1 -> cell_bit g1 c = true.
Proof.
  intros Hx Hset. unfold set_bitmap_one in Hset.
  destruct (rd g (LOWER_BITS c)) as [row|] eqn:Hrow; [simpl in Hset|discriminate].
  unfold cell_bit. rewrite (rd_wr_eq _ _ _ _ Hset).
  rewrite to_u8_bits, Z.lor_spec, shiftl_1_bits by lia.
  rewrite Z.eqb_refl. destruct (Z.ltb_spec (UPPER_BITS c) 8); [btauto|lia].
Qed.

Lemma cell_bit_set_zero (g g0 : list Z) (c : Z) :
  0 <= UPPER_BITS c -> set_bitmap_zero g c = Some g0 -> cell_bit g0 c = false.
Proof.
  intros Hx Hset. unfold set_bitmap_zero in Hset.
  destruct (rd g (LOWER_BITS c)) as [row|] eqn:Hrow; [simpl in Hset|discriminate].
  unfold cell_bit. rewrite (rd_wr_eq _ _ _ _ Hset).
  rewrite to_u8_bits, Z.land_spec, Z.lnot_spec, shiftl_1_bits by lia.
  rewrite Z.eqb_refl. btauto.
Qed.

(** ** [place_apple] *)

(** When [rand() % n] is zero the first cell visited is written, whatever
    the bitmap holds. *)
Lemma place_apple_rand_zero (rand_value : Z) (g : list Z) (old score : Z) :
  64 - score <> 0 -> Z.rem rand_value (64 - score) = 0 ->
  place_apple rand_value g old score = Some 0.
Proof.
  intros Hn Hr. unfold place_apple.
  replace (SCREEN_HEIGHT * SCREEN_WIDTH - 1 - score + 1) with (64 - score)
    by (unfold SCREEN_HEIGHT, SCREEN_WIDTH; lia).
  destruct (Z.eqb_spec (64 - score) 0); [contradiction|].
  rewrite Hr. reflexivity.
Qed.

(** C2: the claim asks for a free cell with both components below 8.  On
    the bitmap of a snake at (4,6), (4,7) with its head at (4,0), score 3 and
    [rand()] returning 4, the cell written is (4,0), whose bit is set; on the
    empty bitmap with [rand()] returning 9 it is (8,0), outside the screen. *)
Theorem place_apple_on_occupied_cell :
  let bitmap := [16; 0; 0; 0; 0; 0; 16; 16] in
  place_apple 4 bitmap 255 3 = Some (TO_COORDINATES 4 0)
  /\ cell_bit bitmap (TO_COORDINATES 4 0) = true
  /\ cell_bit bitmap (TO_COORDINATES 0 0) = false
  /\ place_apple 9 (replicate 8 0) 255 2 = Some (TO_COORDINATES 8 0)
  /\ UPPER_BITS (TO_COORDINATES 8 0) = 8.
Proof. vm_compute. auto 6. Qed.

(** C7: the claim, like the warning above [place_apple], asks that a full
    bitmap leaves [*apple_coordinates] alone.  With every bit of the bitmap
    set and the apple at (4,7), the call writes (0,0) when [rand() % n] is 0
    and (5,0) when it is 5. *)
Theorem place_apple_full_bitmap_overwrites :
  let bitmap := replicate 8 255 in
  forallb (fun y => forallb (fun x => cell_bit bitmap (TO_COORDINATES x y))
                            (seqZ 0 8)) (seqZ 0 8) = true
  /\ place_apple 0 bitmap (TO_COORDINATES 4 7) 63 = Some (TO_COORDINATES 0 0)
  /\ place_apple 5 bitmap (TO_COORDINATES 4 7) 2 = Some (TO_COORDINATES 5 0).
Proof. vm_compute. auto. Qed.

(** *** The scan always stops within the eight rows *)

Section Scan.

Variable g : list Z.
Hypothesis Hlen : length g = 8%nat.

Lemma check_bitmap_other_columns (x y : Z) :
  0 <= y < 8 -> 1 <= x < 16 ->
  check_bitmap g (to_u8 (TO_COORDINATES x y)) = Some 0.
Proof.
  intros Hy Hx. destruct (coords_unpack x y) as (Hu & Hl & _); [lia..|].
  destruct (rd_defined g y) as [row Hrow]; [lia|].
  rewrite (check_bitmap_value g _ row) by (by rewrite Hl).
  rewrite Hu. destruct (row =? 0); [reflexivity|].
  destruct (Z.eqb_spec x 0); [lia|reflexivity].
Qed.

Lemma scan_row_counted (y : Z) (xs : list Z) :
  (forall x, x ∈ xs -> check_bitmap g (to_u8 (TO_COORDINATES x y)) = Some 0) ->
  forall r, 0 < r < 256 ->
  scan_row g y xs r =
    Some (match xs !! Z.to_nat (r - 1) with
          | Some x => Placed (to_u8 (TO_COORDINATES x y))
          | None => Running (r - Z.of_nat (length xs))
          end).
Proof.
  induction xs as [|x xs IH]; intros Hfree r Hr.
  - simpl. by rewrite Z.sub_0_r.
  - cbn [scan_row]. destruct (Z.eqb_spec r 0); [lia|].
    rewrite Hfree by left. cbn.
    assert (Hdec : to_u8 (r - 1) = r - 1)
      by (unfold to_u8; apply Z.mod_small; lia).
    rewrite Hdec. unfold c_not at 1.
    destruct (Z.eqb_spec (r - 1) 0) as [H0|H0]; simpl.
    + by rewrite H0.
    + rewrite IH by (try lia; intros; apply Hfree; by right).
      replace (Z.to_nat (r - 1)) with (S (Z.to_nat (r - 1 - 1))) by lia.
      simpl. destruct (xs !! _); [reflexivity|]. do 2 f_equal. lia.
Qed.

Lemma scan_row_full (y r : Z) :
  0 <= y < 8 -> 0 <= r < 256 ->
  exists s, scan_row g y (seqZ 0 (SCREEN_WIDTH + 1)) r = Some s /\
    match s with
    | Placed c => LOWER_BITS c = y
    | Running r' => 0 < r' /\ r' + 8 <= r
    end.
Proof.
  intros Hy Hr.
  change (seqZ 0 (SCREEN_WIDTH + 1)) with (0 :: seqZ 1 8).
  assert (Hrest : forall r1, 0 < r1 < 256 ->
            scan_row g y (seqZ 1 8) r1 =
              Some (if r1 <=? 8 then Placed (to_u8 (TO_COORDINATES r1 y))
                    else Running (r1 - 8))).
  { intros r1 Hr1. rewrite scan_row_counted; [|
      intros x [? ?]%elem_of_seqZ; apply check_bitmap_other_columns; lia | lia].
    destruct (Z.leb_spec r1 8).
    - rewrite lookup_seqZ_lt by lia.
      by replace (1 + Z.of_nat (Z.to_nat (r1 - 1))) with r1 by lia.
    - rewrite lookup_seqZ_ge by lia. reflexivity. }
  assert (Hplaced : forall x, 0 <= x <= 8 ->
            LOWER_BITS (to_u8 (TO_COORDINATES x y)) = y)
    by (intros x Hx; apply coords_unpack; lia).
  remember (seqZ 1 8) as rest eqn:Erest. clear Erest.
  cbn [scan_row]. destruct (Z.eqb_spec r 0) as [->|Hnz].
  - cbn. eexists; split; [reflexivity|]. apply (Hplaced 0). lia.
  - destruct (rd_defined g y) as [row Hrow]; [lia|].
    destruct (coords_unpack 0 y) as (_ & Hl & _); [lia..|].
    rewrite (check_bitmap_value g _ row) by (by rewrite Hl). cbn.
    set (v := if row =? 0 then 0 else _).
    set (r1 := if c_not v =? 0 then r else to_u8 (r - 1)).
    assert (Hr1 : 0 <= r1 <= r /\ r - 1 <= r1).
    { subst r1. destruct (c_not v =? 0); [lia|].
      unfold to_u8. rewrite Z.mod_small; lia. }
    clearbody r1. unfold c_not at 1.
    destruct (Z.eqb_spec r1 0) as [->|Hr1nz]; simpl.
    + eexists; split; [reflexivity|]. apply (Hplaced 0). lia.
    + rewrite Hrest by lia. eexists; split; [reflexivity|].
      destruct (Z.leb_spec r1 8); [apply Hplaced|]; lia.
Qed.

Lemma scan_rows_places (ys : list Z) :
  (forall y, y ∈ ys -> 0 <= y < 8) ->
  forall r, 0 <= r <= 8 * Z.of_nat (length ys) -> r < 256 -> ys <> [] ->
  exists c, scan_rows g ys (seqZ 0 (SCREEN_WIDTH + 1)) r = Some (Placed c)
            /\ 0 <= LOWER_BITS c < 8.
Proof.
  induction ys as [|y ys IH]; intros Hys r Hr Hbyte Hne; [done|].
  assert (Hy : 0 <= y < 8) by (apply Hys; left).
  simpl in Hr. cbn [scan_rows].
  destruct (scan_row_full y r) as ([c|r'] & -> & Hs); [lia|lia|..]; cbn.
  - exists c. split; [reflexivity|lia].
  - apply IH; [intros; apply Hys; by right|lia|lia|].
    intros ->. simpl in Hr. lia.
Qed.

Lemma scan_rows_app_placed (ys ys' xs : list Z) (c : Z) :
  forall r, scan_rows g ys xs r = Some (Placed c) ->
  scan_rows g (ys ++ ys') xs r = Some (Placed c).
Proof.
  induction ys as [|y ys IH]; intros r; [discriminate|].
  cbn [scan_rows app]. destruct (scan_row g y xs r) as [[c'|r']|]; cbn; auto.
Qed.

(** With a score below 64 and a bitmap of eight rows the function always
    writes a cell, and that cell lies in one of the eight rows. *)
Lemma place_apple_total (rand_value old score : Z) :
  0 <= rand_value -> 0 <= score < 64 ->
  exists c, place_apple rand_value g old score = Some c
            /\ 0 <= LOWER_BITS c < 8.
Proof.
  intros Hrnd Hscore. unfold place_apple.
  replace (SCREEN_HEIGHT * SCREEN_WIDTH - 1 - score + 1) with (64 - score)
    by (unfold SCREEN_HEIGHT, SCREEN_WIDTH; lia).
  destruct (Z.eqb_spec (64 - score) 0); [lia|].
  pose proof (Z.rem_bound_pos rand_value (64 - score)) as Hrem.
  assert (Hr : to_u8 (Z.rem rand_value (64 - score)) = Z.rem rand_value (64 - score))
    by (unfold to_u8; apply Z.mod_small; lia).
  rewrite Hr.
  change (seqZ 0 (SCREEN_HEIGHT + 1)) with (seqZ 0 8 ++ [8]).
  destruct (scan_rows_places (seqZ 0 8)) with (r := Z.rem rand_value (64 - score))
    as (c & Hc & Hrow).
  - intros y [? ?]%elem_of_seqZ. lia.
  - rewrite length_seqZ. lia.
  - lia.
  - discriminate.
  - rewrite (scan_rows_app_placed _ _ _ _ _ Hc). cbn. eauto.
Qed.

End Scan.

(** ** The game task *)

Lemma set_bitmap_one_total (g : list Z) (c : Z) :
  length g = 8%nat -> LOWER_BITS c < 8 ->
  exists g1, set_bitmap_one g c = Some g1 /\ length g1 = 8%nat.
Proof.
  intros Hlen Hy. pose proof (LOWER_BITS_range c).
  destruct (rd_defined g (LOWER_BITS c)) as [row Hrow]; [lia|].
  eexists. split; [by apply set_bitmap_one_Some|by rewrite length_insert].
Qed.

Lemma set_bitmap_zero_total (g : list Z) (c : Z) :
  length g = 8%nat -> LOWER_BITS c < 8 ->
  exists g0, set_bitmap_zero g c = Some g0 /\ length g0 = 8%nat.
Proof.
  intros Hlen Hy. pose proof (LOWER_BITS_range c).
  destruct (rd_defined g (LOWER_BITS c)) as [row Hrow]; [lia|].
  eexists. split; [by apply set_bitmap_zero_Some|by rewrite length_insert].
Qed.

Lemma valid_turn_opposite (body new_direction : Z) :
  is_direction body -> is_direction new_direction ->
  valid_turn body new_direction = true <-> new_direction <> opposite body.
Proof.
  unfold is_direction.
  intros [-> | [-> | [-> | ->]]] [-> | [-> | [-> | ->]]]; vm_compute; split; congruence.
Qed.

(** What a button press leaves behind. *)
Lemma direction_event_total (d : Z) (st : game) :
  wf st ->
  exists st', direction_event d st = Some st'
    /\ wf st'
    /\ direction st' = (if valid_turn (body_direction st) d then d
                        else direction st)
    /\ body_direction st' = body_direction st
    /\ state st' = state st
    /\ snake_buf st' = snake_buf st
    /\ head_idx st' = head_idx st /\ tail_idx st' = tail_idx st
    /\ apple st' = apple st /\ current_score st' = current_score st
    /\ got_apple st' = got_apple st.
Proof.
  intros [Hg Hb Hh Ht Hrow]. unfold direction_event.
  destruct (set_bitmap_zero_total _ _ Hg Hrow) as (g1 & -> & Hg1). cbn.
  destruct (rd_defined (snake_buf st) (head_idx st)) as [old ->]; [lia|]. cbn.
  set (dir := if valid_turn _ _ then _ else _).
  pose proof (place_new_head_range old dir) as [Hrow' _].
  destruct (set_bitmap_one_total g1 (place_new_head old dir)) as (g2 & -> & Hg2);
    [done|lia|]. cbn.
  eexists. split; [reflexivity|]. split; [constructor; simpl; lia|].
  simpl. repeat split; reflexivity.
Qed.

(** C4: with the body direction and the received value among the four
    direction codes, the block run on a received direction passes the test of
    the sums exactly when the value is not the opposite of the body direction.
    Then [direction] becomes the received value; an opposite value leaves
    [direction] as it was.  [body_direction] is not touched. *)
Theorem direction_event_reversal_rule (st : game) (new_direction : Z) :
  wf st -> is_direction (body_direction st) -> is_direction new_direction ->
  exists st', direction_event new_direction st = Some st'
    /\ body_direction st' = body_direction st
    /\ (valid_turn (body_direction st) new_direction = true
        <-> new_direction <> opposite (body_direction st))
    /\ (new_direction <> opposite (body_direction st) ->
        direction st' = new_direction)
    /\ (new_direction = opposite (body_direction st) ->
        direction st' = direction st).
Proof.
  intros Hwf Hbody Hnew.
  destruct (direction_event_total new_direction st Hwf)
    as (st' & Hev & _ & Hdir & Hbd & _).
  pose proof (valid_turn_opposite _ _ Hbody Hnew) as Hturn.
  exists st'. split; [done|]. split; [done|]. split; [done|].
  rewrite Hdir. split.
  - intros Hne. apply Hturn in Hne. by rewrite Hne.
  - intros Heq. destruct (valid_turn _ _) eqn:Hv; [|done].
    by destruct (proj1 Hturn eq_refl).
Qed.

Lemma direction_event_reversal_rule_witness :
  exists st', direction_event DOWN after_setup = Some st'
    /\ body_direction st' = body_direction after_setup
    /\ (valid_turn (body_direction after_setup) DOWN = true
        <-> DOWN <> opposite (body_direction after_setup))
    /\ (DOWN <> opposite (body_direction after_setup) ->
        direction st' = DOWN)
    /\ (DOWN = opposite (body_direction after_setup) ->
        direction st' = direction after_setup).
Proof.
  apply (direction_event_reversal_rule after_setup DOWN).
  - wf_by_evaluation.
  - left. reflexivity.
  - right. left. reflexivity.
Defined.

Lemma SNAKE_NEXT_byte (i : Z) :
  0 <= i < 64 -> to_u8 (SNAKE_NEXT i) = (i + 1) mod 64.
Proof.
  intros Hi. unfold SNAKE_NEXT, SNAKE_LEN, to_u8.
  rewrite Z.rem_mod_nonneg by lia.
  apply Z.mod_small. pose proof (Z.mod_pos_bound (i + 1) 64). lia.
Qed.

Lemma body_length_grow (h t : Z) :
  0 <= h < 64 -> 0 <= t < 64 -> (h - t) mod 64 + 1 < 64 ->
  ((h + 1) mod 64 - t) mod 64 + 1 = ((h - t) mod 64 + 1) + 1
  /\ (h + 1) mod 64 <> t.
Proof. intros Hh Ht Hlen. Z.div_mod_to_equations. lia. Qed.

Lemma body_length_move (h t : Z) :
  0 <= h < 64 -> 0 <= t < 64 ->
  ((h + 1) mod 64 - (t + 1) mod 64) mod 64 = (h - t) mod 64.
Proof. intros Hh Ht. Z.div_mod_to_equations. lia. Qed.

Lemma cell_bit_cleared (g g0 : list Z) (c : Z) :
  set_bitmap_zero g c = Some g0 -> cell_bit g0 c = false.
Proof.
  intros Hset. destruct (Z.lt_ge_cases (UPPER_BITS c) 0) as [Hneg|Hpos].
  - unfold cell_bit. destruct (rd g0 _); [|reflexivity].
    by apply Z.testbit_neg_r.
  - by eapply cell_bit_set_zero.
Qed.

(** A tick that follows an apple: the head is committed, the tail stays. *)
Lemma tick_grow (rand_value : Z) (st : game) :
  wf st -> got_apple st = true -> 0 <= rand_value ->
  0 <= current_score st < 64 ->
  exists st', tick rand_value st = Some st'
    /\ wf st'
    /\ state st' = state st
    /\ head_idx st' = (head_idx st + 1) mod 64
    /\ tail_idx st' = tail_idx st
    /\ current_score st' = current_score st
    /\ got_apple st' = false
    /\ body_direction st' = direction st
    /\ direction st' = direction st
    /\ snake_buf st' = <[Z.to_nat ((head_idx st + 1) mod 64) :=
                           to_u8 (current_head st)]> (snake_buf st)
    /\ LOWER_BITS (apple st') < 8.
Proof.
  intros [Hg Hb Hh Ht Hrow] Hgot Hrnd Hscore. unfold tick.
  rewrite (SNAKE_NEXT_byte _ Hh).
  pose proof (Z.mod_pos_bound (head_idx st + 1) 64 eq_refl) as Hh'.
  rewrite wr_Some by lia. cbn.
  rewrite rd_insert_eq by lia. cbn.
  set (head := place_new_head _ _).
  pose proof (place_new_head_range (to_u8 (current_head st)) (direction st))
    as [Hrow' _]. fold head in Hrow'.
  destruct (set_bitmap_one_total (game_bitmap st) head) as (g1 & -> & Hg1);
    [done|lia|]. cbn.
  rewrite Hgot. cbn.
  destruct (place_apple_total g1 Hg1 rand_value (apple st) (current_score st))
    as (c & -> & Hc); [done..|]. cbn.
  destruct (set_bitmap_one_total g1 c) as (g2 & -> & Hg2); [done|lia|]. cbn.
  eexists. split; [reflexivity|].
  split; [constructor; simpl; rewrite ?length_insert; lia|].
  simpl. repeat split; try reflexivity. lia.
Qed.

(** A tick with no apple taken: the head is committed, the bit of the tail
    cell is cleared and the tail index moves on. *)
Lemma tick_move (rand_value : Z) (st : game) (tail : Z) :
  wf st -> got_apple st = false ->
  rd (snake_buf st) (tail_idx st) = Some tail -> LOWER_BITS tail < 8 ->
  body_length st < 64 ->
  exists st', tick rand_value st = Some st'
    /\ wf st'
    /\ state st' = state st
    /\ head_idx st' = (head_idx st + 1) mod 64
    /\ tail_idx st' = (tail_idx st + 1) mod 64
    /\ current_score st' = current_score st
    /\ got_apple st' = false
    /\ apple st' = apple st
    /\ body_direction st' = direction st
    /\ direction st' = direction st
    /\ current_head st' = place_new_head (to_u8 (current_head st)) (direction st)
    /\ rd (snake_buf st') (head_idx st') = Some (to_u8 (current_head st))
    /\ cell_bit (game_bitmap st') tail = false
    /\ snake_buf st' = <[Z.to_nat ((head_idx st + 1) mod 64) :=
                           to_u8 (current_head st)]> (snake_buf st).
Proof.
  intros [Hg Hb Hh Ht Hrow] Hgot Htail Htrow Hlen. unfold tick.
  rewrite (SNAKE_NEXT_byte _ Hh), (SNAKE_NEXT_byte _ Ht).
  pose proof (Z.mod_pos_bound (head_idx st + 1) 64 eq_refl) as Hh'.
  pose proof (Z.mod_pos_bound (tail_idx st + 1) 64 eq_refl) as Ht'.
  destruct (body_length_grow _ _ Hh Ht Hlen) as [_ Hne].
  rewrite wr_Some by lia. cbn.
  rewrite rd_insert_eq by lia. cbn.
  set (head := place_new_head _ _).
  pose proof (place_new_head_range (to_u8 (current_head st)) (direction st))
    as [Hrow' _]. fold head in Hrow'.
  destruct (set_bitmap_one_total (game_bitmap st) head) as (g1 & -> & Hg1);
    [done|lia|]. cbn.
  rewrite Hgot. cbn.
  rewrite rd_insert_ne, Htail by lia. cbn.
  destruct (set_bitmap_zero_total g1 tail) as (g2 & Hz & Hg2); [done..|].
  rewrite Hz. cbn.
  eexists. split; [reflexivity|].
  split; [constructor; simpl; rewrite ?length_insert; lia|].
  simpl. repeat split; try reflexivity.
  - apply rd_insert_eq. lia.
  - by eapply cell_bit_cleared.
Qed.

(** The apple test changes the scalars only. *)
Lemma apple_check_taken (st : game) :
  current_head st = apple st -> 0 <= current_score st < 63 ->
  let st' := apple_check st in
  current_score st' = current_score st + 1
  /\ got_apple st' = true /\ apple st' = 255 /\ state st' = state st
  /\ snake_buf st' = snake_buf st /\ game_bitmap st' = game_bitmap st
  /\ head_idx st' = head_idx st /\ tail_idx st' = tail_idx st
  /\ current_head st' = current_head st
  /\ direction st' = direction st.
Proof.
  intros Heq Hscore. unfold apple_check.
  rewrite Heq, Z.eqb_refl. simpl.
  assert (Hs : to_u8 (current_score st + 1) = current_score st + 1)
    by (unfold to_u8; apply Z.mod_small; lia).
  rewrite Hs. destruct (Z.geb_spec (current_score st + 1) 64); [lia|].
  repeat split; reflexivity.
Qed.

Lemma apple_check_missed (st : game) :
  current_head st <> apple st -> apple_check st = st.
Proof.
  intros Hne. unfold apple_check.
  by destruct (Z.eqb_spec (current_head st) (apple st)).
Qed.

Lemma apple_check_wf (st : game) : wf st -> wf (apple_check st).
Proof.
  intros [Hg Hb Hh Ht Hrow]. unfold apple_check.
  destruct (current_head st =? apple st); constructor; simpl; done.
Qed.



(** X21: at a score of 63 the pass that takes the apple and ticks has no defined
    result: the score becomes 64 and [place_apple] takes a remainder by
    [64 - 64]. *)
Lemma tick_after_last_apple_undefined (st : game) (rand_value : Z) :
  state st = PLAYING -> current_head st = apple st -> current_score st = 63 ->
  loop_body (ticking rand_value) st = None.
Proof.
  intros Hst Heq Hscore. unfold loop_body. rewrite Hst. cbn.
  unfold apple_check. rewrite Heq, Z.eqb_refl, Hscore. cbn.
  unfold tick. cbn.
  destruct (wr _ _ _) as [buf|]; [cbn|reflexivity].
  destruct (rd buf _); [cbn|reflexivity].
  destruct (set_bitmap_one _ _); [cbn|reflexivity].
  reflexivity.
Qed.

Lemma tick_after_last_apple_undefined_witness :
  loop_body (ticking 5) last_apple = None.
Proof.
  apply (tick_after_last_apple_undefined last_apple 5); reflexivity.
Defined.

(** C8: from a start with zeroed locals the passes [to_the_last_apple] end in
    Playing with the provisional head on the apple, a score of 63 and 62 of
    the 64 cells stored.  The pass that follows with a tick pending has no
    result, whatever [rand()] returns: the apple test raises the score to 64
    and the tick calls [place_apple], which takes a remainder by zero.  With
    no tick pending the same pass raises the score to 64 and leaves
    Playing. *)
Theorem last_apple_tick_has_no_result :
  exists st, GameLogicTask zeroed to_the_last_apple = Some st
    /\ state st = PLAYING /\ current_head st = apple st
    /\ current_score st = 63 /\ body_length st = 62
    /\ (forall rand_value, loop_body (ticking rand_value) st = None)
    /\ GameLogicTask zeroed (to_the_last_apple ++ [ticking 0]) = None
    /\ exists st', loop_body idle st = Some st'
         /\ current_score st' = 64 /\ state st' = GAME_OVER_TRANS.
Proof.
  eexists. split; [vm_compute; reflexivity|].
  do 4 (split; [vm_compute; reflexivity|]).
  split; [intros rand_value; vm_compute; reflexivity|].
  split; [vm_compute; reflexivity|].
  eexists. split; [vm_compute; reflexivity|].
  split; vm_compute; reflexivity.
Qed.

(** When [head_idx] starts at 63 the buffer counts 64 stored cells from the
    setup on; with the head on the apple, the pass with a tick moves
    [head_idx] onto [tail_idx] and the count falls from 64 to 1. *)
Lemma apple_tick_on_full_buffer :
  exists st st', GameLogicTask head_idx_last over_the_top = Some st
    /\ state st = PLAYING /\ current_head st = apple st
    /\ current_score st = 2 /\ body_length st = 64
    /\ loop_body (ticking 0) st = Some st'
    /\ body_length st' = 1 /\ current_score st' = 3.
Proof.
  do 2 eexists. split; [vm_compute; reflexivity|].
  do 4 (split; [vm_compute; reflexivity|]).
  split; [vm_compute; reflexivity|].
  split; vm_compute; reflexivity.
Qed.

(** ** Bitmap against snake, head and apple *)

Lemma grid_consistentb_sound (st : game) :
  grid_consistentb st = true -> grid_consistent st.
Proof.
  intros Hall x y Hx Hy.
  pose proof (range_check _ _ (range_check _ _ Hall x Hx) y Hy) as Hc.
  cbv zeta in Hc. apply eqb_prop in Hc. rewrite Hc.
  rewrite !orb_true_iff, bool_decide_eq_true, !Z.eqb_eq. tauto.
Qed.

(** Right after the setup the bits set are those of the start cell, the
    provisional head and the apple. *)
Lemma setup_is_consistent : grid_consistent after_setup.
Proof. apply grid_consistentb_sound. vm_compute. reflexivity. Qed.

(** C5: the claim asks that in every state reached from the setup a bit is
    set exactly for the stored cells, the provisional head and the apple.
    After the setup and five ticks the provisional head lies on the apple at
    (4,7); a press of RIGHT in the next pass clears the bit of the old head,
    moves the head to (5,6), and the apple test no longer matches: the apple
    is still at (4,7) and its bit is clear. *)
Theorem apple_bit_erased_under_head :
  exists st, GameLogicTask zeroed off_the_apple = Some st
    /\ state st = PLAYING
    /\ apple st = TO_COORDINATES 4 7
    /\ current_head st = TO_COORDINATES 5 6
    /\ cell_bit (game_bitmap st) (TO_COORDINATES 4 7) = false
    /\ ~ grid_consistent st.
Proof.
  eexists. split; [vm_compute; reflexivity|].
  split; [reflexivity|]. split; [reflexivity|]. split; [reflexivity|].
  split; [reflexivity|].
  intros Hc. destruct (Hc 4 7) as [_ Hset]; [lia..|].
  discriminate Hset. right. right. reflexivity.
Qed.

(** A second way to lose a bit: after the setup, a press of RIGHT and four
    ticks, the provisional head is (7,1) and its bit is clear.  The head had
    left the screen for column 8, came back to (7,1), and the tick that set
    its bit then cleared the tail stored on the same cell. *)
Lemma head_bit_lost_at_right_edge :
  exists st, GameLogicTask zeroed to_the_right_edge = Some st
    /\ state st = PLAYING
    /\ current_head st = TO_COORDINATES 7 1
    /\ cell_bit (game_bitmap st) (TO_COORDINATES 7 1) = false
    /\ ~ grid_consistent st.
Proof.
  eexists. split; [vm_compute; reflexivity|].
  split; [reflexivity|]. split; [reflexivity|]. split; [reflexivity|].
  intros Hc. destruct (Hc 7 1) as [_ Hset]; [lia..|].
  discriminate Hset. right. left. reflexivity.
Qed.

(** ** Self-collision *)

(** A pass in Playing leaves Playing only when the score reaches 64. *)
Lemma playing_leaves_only_by_score (inp : inputs) (st st' : game) :
  state st = PLAYING -> playing inp st = Some st' ->
  state st' = PLAYING \/ (state st' = GAME_OVER_TRANS /\ 64 <= current_score st').
Proof.
  intros Hplaying Hpass.
  assert (Htick : forall r s s', tick r s = Some s' ->
            state s' = state s /\ current_score s' = current_score s).
  { intros r s s' Ht. unfold tick in Ht.
    destruct (wr _ _ _) as [buf|]; [cbn in Ht|discriminate].
    destruct (rd buf (to_u8 _)); [cbn in Ht|discriminate].
    destruct (set_bitmap_one _ _); [cbn in Ht|discriminate].
    destruct (negb (got_apple s)); cbn in Ht.
    - destruct (rd buf _); [cbn in Ht|discriminate].
      destruct (set_bitmap_zero _ _); [cbn in Ht|discriminate].
      injection Ht as <-. done.
    - destruct (place_apple _ _ _ _); [cbn in Ht|discriminate].
      destruct (set_bitmap_one _ _); [cbn in Ht|discriminate].
      injection Ht as <-. done. }
  assert (Hrest : forall st1, state st1 = PLAYING ->
            (if in_tick inp then tick (in_rand inp) (apple_check st1)
             else Some (apple_check st1)) = Some st' ->
            state st' = PLAYING
            \/ (state st' = GAME_OVER_TRANS /\ 64 <= current_score st')).
  { intros st1 H1 Hend.
    assert (H2 : state (apple_check st1) = PLAYING
                 \/ (state (apple_check st1) = GAME_OVER_TRANS
                     /\ 64 <= current_score (apple_check st1))).
    { unfold apple_check. destruct (current_head st1 =? apple st1); [|by left].
      simpl. destruct (Z.geb_spec (to_u8 (current_score st1 + 1)) 64);
        [right; split; [done|lia]|by left]. }
    destruct (in_tick inp).
    - apply Htick in Hend as [-> ->]. done.
    - injection Hend as <-. done. }
  unfold playing in Hpass. destruct (in_direction inp) as [d|].
  - destruct (direction_event d st) as [st1|] eqn:Hst1; [cbn in Hpass|discriminate].
    apply (Hrest st1); [|done].
    unfold direction_event in Hst1.
    destruct (set_bitmap_zero _ _); [cbn in Hst1|discriminate].
    destruct (rd _ _); [cbn in Hst1|discriminate].
    destruct (set_bitmap_one _ _); [cbn in Hst1|discriminate].
    injection Hst1 as <-. done.
  - cbn in Hpass. by apply (Hrest st).
Qed.

(** C3: the claim asks that a provisional head on a stored body cell ends
    the game at the next tick.  After the passes [into_own_body] the body is
    (4,3), (4,4), (4,5), (5,5), (5,4), the head points at (4,4) and the apple
    is at (0,0); the pass with the next tick stores (4,4) a second time and
    the state is still Playing.  The only test before the tick compares the
    head with the apple. *)
Theorem self_collision_goes_unnoticed :
  exists st st', GameLogicTask zeroed into_own_body = Some st
    /\ state st = PLAYING
    /\ live_cells st = [TO_COORDINATES 4 3; TO_COORDINATES 4 4;
                        TO_COORDINATES 4 5; TO_COORDINATES 5 5;
                        TO_COORDINATES 5 4]
    /\ current_head st = TO_COORDINATES 4 4
    /\ apple st = TO_COORDINATES 0 0
    /\ loop_body (ticking 0) st = Some st'
    /\ state st' = PLAYING
    /\ live_cells st' = [TO_COORDINATES 4 4; TO_COORDINATES 4 5;
                         TO_COORDINATES 5 5; TO_COORDINATES 5 4;
                         TO_COORDINATES 4 4].
Proof.
  eexists. eexists. split; [vm_compute; reflexivity|].
  repeat split; vm_compute; reflexivity.
Qed.

(** ** Setup *)

(** C6: the claim asks that the setup puts the provisional head one cell
    above the start (4,1).  The setup reads the old head at
    [snake_buf[head_idx]], and [head_idx] has no initialiser; from a start
    where it holds 5 and the buffer holds zeroes, the head comes out at (0,1)
    and the bit of (4,2) stays clear. *)
Theorem setup_reads_uninitialised_head_idx :
  exists st, GameLogicTask head_idx_five [idle] = Some st
    /\ state st = PLAYING
    /\ rd (snake_buf st) 0 = Some (TO_COORDINATES 4 1)
    /\ current_head st = TO_COORDINATES 0 1
    /\ cell_bit (game_bitmap st) (TO_COORDINATES 4 2) = false
    /\ cell_bit (game_bitmap st) (TO_COORDINATES 0 1) = true.
Proof.
  eexists. split; [vm_compute; reflexivity|]. repeat split; reflexivity.
Qed.

Lemma run_app (l1 l2 : list inputs) (st : game) :
  run (l1 ++ l2) st = run l1 st ≫= run l2.
Proof.
  revert st. induction l1 as [|inp l1 IH]; intros st; cbn [run app].
  - reflexivity.
  - destruct (loop_body inp st); cbn; [apply IH|reflexivity].
Qed.

(** When [head_idx] starts at zero the setup is the one intended. *)
Lemma setup_game_from_zero (inp : inputs) (junk : game) :
  head_idx junk = 0 -> length (snake_buf junk) = 64%nat ->
  exists st, loop_body inp (power_on junk) = Some st
    /\ wf st
    /\ state st = PLAYING
    /\ game_bitmap st = [0; 16; 16; 0; 0; 0; 0; 16]
    /\ head_idx st = 0 /\ tail_idx st = 0
    /\ rd (snake_buf st) 0 = Some (TO_COORDINATES 4 1)
    /\ current_head st = TO_COORDINATES 4 2
    /\ apple st = TO_COORDINATES 4 7
    /\ direction st = UP /\ body_direction st = UP
    /\ current_score st = 2
    /\ got_apple st = false.
Proof.
  intros Hh Hlen. unfold loop_body. cbn [power_on state].
  change (SETUP_GAME =? MAIN_MENU) with false.
  change (SETUP_GAME =? SETUP_GAME) with true. cbv iota.
  unfold setup_game. cbn [power_on game_bitmap snake_buf head_idx tail_idx got_apple].
  change (clear_rows (replicate 8 0) (seqZ 0 SCREEN_WIDTH))
    with (Some (replicate 8 0)). cbn [mbind option_bind].
  rewrite wr_Some by lia. cbn [mbind option_bind].
  rewrite rd_insert_eq by lia. cbn [mbind option_bind].
  rewrite Hh, rd_insert_eq by lia.
  change (to_u8 (TO_COORDINATES 4 1)) with 65.
  change (set_bitmap_one (replicate 8 0) 65) with (Some [0; 16; 0; 0; 0; 0; 0; 0]).
  cbn [mbind option_bind].
  change (place_new_head 65 UP) with 66.
  change (set_bitmap_one [0; 16; 0; 0; 0; 0; 0; 0] 66)
    with (Some [0; 16; 16; 0; 0; 0; 0; 0]).
  cbn [mbind option_bind].
  change (to_u8 (TO_COORDINATES 4 7)) with 71.
  change (set_bitmap_one [0; 16; 16; 0; 0; 0; 0; 0] 71)
    with (Some [0; 16; 16; 0; 0; 0; 0; 16]).
  cbn [mbind option_bind].
  eexists. split; [reflexivity|]. split.
  - constructor; cbn; rewrite ?length_insert; try lia. vm_compute. reflexivity.
  - cbn. repeat split; try reflexivity. apply list_lookup_insert_eq. lia.
Qed.

(** *** Five ticks straight up *)

Lemma climbing_idle (k : Z) (st : game) :
  0 <= k < 5 -> climbing k st -> loop_body idle st = Some st.
Proof.
  intros Hk [_ Hst _ _ _ Happle _ Hhead _]. unfold loop_body.
  rewrite Hst. cbn. f_equal. apply apple_check_missed.
  rewrite Hhead, Happle. rows_below_five k; discriminate.
Qed.

Lemma climbing_tick (k r : Z) (st : game) :
  0 <= k < 5 -> climbing k st ->
  exists st', loop_body (ticking r) st = Some st' /\ climbing (k + 1) st'.
Proof.
  intros Hk [Hwf Hst Hflag Hidx Hdir Happle Hscore Hhead Hbody].
  assert (Hmiss : current_head st <> apple st)
    by (rewrite Hhead, Happle; rows_below_five k; discriminate).
  unfold loop_body. rewrite Hst. cbn. rewrite (apple_check_missed _ Hmiss).
  destruct (tick_move r st (TO_COORDINATES 4 (1 + k)) Hwf Hflag)
    as (st' & -> & Hwf' & Hst' & Hh' & Ht' & Hs' & Hf' & Ha' & Hb' & Hd' & Hc' & Hr' & _).
  - by rewrite Hidx.
  - rows_below_five k; vm_compute; reflexivity.
  - unfold body_length. rewrite Hidx, Z.sub_diag. vm_compute. reflexivity.
  - exists st'. split; [reflexivity|]. constructor; try congruence.
    + rewrite Hc', Hhead, Hdir. rows_below_five k; reflexivity.
    + rewrite Hr', Hhead. rows_below_five k; reflexivity.
Qed.

Lemma climbing_idles (k : Z) (st : game) (n : nat) :
  0 <= k < 5 -> climbing k st -> run (replicate n idle) st = Some st.
Proof.
  intros Hk Hcl. induction n as [|n IH]; [reflexivity|].
  cbn [replicate run]. by rewrite (climbing_idle k st Hk Hcl).
Qed.

Lemma climbing_run (gaps : list (nat * Z)) :
  forall k st, 0 <= k -> k + Z.of_nat (length gaps) <= 5 -> climbing k st ->
  exists st', run (passes gaps) st = Some st'
              /\ climbing (k + Z.of_nat (length gaps)) st'.
Proof.
  induction gaps as [|[n r] gaps IH]; intros k st Hk Hlen Hcl.
  - exists st. split; [reflexivity|]. by rewrite Z.add_0_r.
  - cbn [length] in *. unfold passes. cbn [flat_map fst snd].
    rewrite <- app_assoc, run_app, (climbing_idles k st n) by (done || lia).
    cbn [mbind option_bind app run].
    destruct (climbing_tick k r st) as (st1 & -> & Hcl1); [lia|done|].
    cbn [mbind option_bind].
    destruct (IH (k + 1) st1) as (st' & Hrun & Hcl'); [lia|lia|done|].
    exists st'. split; [done|].
    by replace (k + Z.of_nat (S (length gaps)))
      with (k + 1 + Z.of_nat (length gaps)) by lia.
Qed.

(** X14: from a start with [head_idx] at zero: after the setup and five ticks,
    however many idle passes lie between them, the stored head is (4,6), five
    rows above the start, the provisional head is (4,7), the score is 2. *)
Lemma setup_then_five_ticks (inp : inputs) (junk : game) (gaps : list (nat * Z)) :
  head_idx junk = 0 -> length (snake_buf junk) = 64%nat ->
  length gaps = 5%nat ->
  exists st, GameLogicTask junk (inp :: passes gaps) = Some st
    /\ state st = PLAYING
    /\ rd (snake_buf st) (head_idx st) = Some (TO_COORDINATES 4 6)
    /\ current_head st = TO_COORDINATES 4 7
    /\ direction st = UP
    /\ current_score st = 2.
Proof.
  intros Hh Hlen Hgaps.
  destruct (setup_game_from_zero inp junk Hh Hlen)
    as (st0 & Hsetup & Hwf & Hst & _ & Hh0 & Ht0 & Hb0 & Hc0 & Ha0 & Hd0 & _ & Hs0 & Hf0).
  unfold GameLogicTask. cbn [run]. rewrite Hsetup. cbn [mbind option_bind].
  destruct (climbing_run gaps 0 st0) as (st & Hrun & Hcl); [lia|lia| |].
  - constructor; try done; [congruence|by rewrite Hh0].
  - rewrite Hgaps in Hcl. destruct Hcl. exists st. done.
Qed.

Lemma setup_then_five_ticks_witness :
  exists st,
    GameLogicTask zeroed (idle :: passes [(3%nat, 0); (9%nat, 0); (9%nat, 0);
                                          (9%nat, 0); (9%nat, 0)]) = Some st
    /\ state st = PLAYING
    /\ rd (snake_buf st) (head_idx st) = Some (TO_COORDINATES 4 6)
    /\ current_head st = TO_COORDINATES 4 7
    /\ direction st = UP
    /\ current_score st = 2.
Proof.
  apply (setup_then_five_ticks idle zeroed); reflexivity.
Defined.

(** ** What holds while the game is played *)

Lemma LOWER_BITS_to_u8 (c : Z) : LOWER_BITS (to_u8 c) = LOWER_BITS c.
Proof.
  unfold LOWER_BITS. apply Z.bits_inj'. intros i Hi.
  rewrite !Z.land_spec, to_u8_bits.
  destruct (Z.ltb_spec i 8); [reflexivity|].
  change 15 with (Z.ones 4). rewrite Z.ones_spec_high by lia. btauto.
Qed.

Lemma live_index_head (h t k : Z) :
  0 <= h < 64 -> 0 <= t < 64 -> (h - t) mod 64 + 1 < 64 ->
  0 <= k <= (h - t) mod 64 + 1 ->
  (t + k) mod 64 = (h + 1) mod 64 <-> k = (h - t) mod 64 + 1.
Proof. intros Hh Ht Hlen Hk. Z.div_mod_to_equations. lia. Qed.

Lemma live_index_shift (t k : Z) :
  0 <= t < 64 -> 0 <= k -> ((t + 1) mod 64 + k) mod 64 = (t + (k + 1)) mod 64.
Proof. intros Ht Hk. Z.div_mod_to_equations. lia. Qed.

Lemma rows_ok_extend (buf : list Z) (h t v : Z) :
  length buf = 64%nat -> 0 <= h < 64 -> 0 <= t < 64 ->
  (h - t) mod 64 + 1 < 64 ->
  rows_ok buf t ((h - t) mod 64 + 1) -> LOWER_BITS v < 8 ->
  rows_ok (<[Z.to_nat ((h + 1) mod 64) := v]> buf) t ((h - t) mod 64 + 1 + 1).
Proof.
  intros Hlen Hh Ht HL Hrows Hv k Hk. unfold SNAKE_LEN.
  pose proof (Z.mod_pos_bound (h + 1) 64 eq_refl) as Hh'.
  pose proof (Z.mod_pos_bound (h - t) 64 eq_refl) as Hd.
  destruct (Z.eq_dec k ((h - t) mod 64 + 1)) as [->|Hne].
  - exists v. split; [|done].
    rewrite (proj2 (live_index_head h t ((h - t) mod 64 + 1) Hh Ht HL
                      ltac:(lia)) eq_refl).
    apply rd_insert_eq. lia.
  - destruct (Hrows k) as (c & Hc & Hrow); [lia|]. exists c. split; [|done].
    rewrite rd_insert_ne; [done|lia|].
    intros Heq. apply Hne. by apply (live_index_head h t k); [..|lia|].
Qed.

Lemma rows_ok_shift (buf : list Z) (t len : Z) :
  0 <= t < 64 -> rows_ok buf t (len + 1) -> rows_ok buf ((t + 1) mod 64) len.
Proof.
  intros Ht Hrows k Hk. unfold SNAKE_LEN.
  rewrite live_index_shift by lia. apply Hrows. lia.
Qed.

Lemma body_length_pos (st : game) : 1 <= body_length st.
Proof.
  unfold body_length, SNAKE_LEN.
  pose proof (Z.mod_pos_bound (head_idx st - tail_idx st) 64 eq_refl). lia.
Qed.

Lemma playable_direction_event (d : Z) (st st' : game) :
  playable st -> is_direction d -> direction_event d st = Some st' ->
  playable st'.
Proof.
  intros [Hwf Hrows Hscore Hbound Hplay Heaten Hdir Hbody] Hd Hev.
  destruct (direction_event_total d st Hwf)
    as (st1 & Hev1 & Hwf1 & Hd1 & Hb1 & Hs1 & Hbuf1 & Hh1 & Ht1 & Ha1 & Hc1 & Hg1).
  rewrite Hev in Hev1. injection Hev1 as <-.
  constructor; unfold body_length in *; rewrite ?Hbuf1, ?Hh1, ?Ht1, ?Hc1, ?Hg1, ?Ha1, ?Hs1, ?Hb1; try done.
  rewrite Hd1. by destruct (valid_turn _ _).
Qed.

Lemma playable_apple_check (st : game) :
  playable st -> state st = PLAYING -> playable (apple_check st).
Proof.
  intros Hpl Hst. pose proof Hpl as [Hwf Hrows Hscore Hbound Hplay Heaten Hdir Hbody].
  pose proof (body_length_pos st) as Hlen.
  destruct (Z.eq_dec (current_head st) (apple st)) as [Heq|Hne];
    [|by rewrite apple_check_missed].
  destruct (got_apple st) eqn:Hgot.
  { exfalso. rewrite (Heaten eq_refl) in Heq.
    pose proof (wf_head_row _ Hwf) as Hrow. rewrite Heq in Hrow.
    vm_compute in Hrow. discriminate. }
  specialize (Hplay Hst).
  assert (Hs : to_u8 (current_score st + 1) = current_score st + 1)
    by (unfold to_u8; apply Z.mod_small; lia).
  constructor; [by apply apple_check_wf|..];
    unfold apple_check; rewrite Heq, Z.eqb_refl; cbv iota; rewrite Hs; cbn;
    unfold body_length in *; cbn; try done; try lia.
  destruct (Z.geb_spec (current_score st + 1) 64); [discriminate|lia].
Qed.

Lemma tick_at_full_score (rand_value : Z) (st : game) :
  got_apple st = true -> current_score st = 64 -> tick rand_value st = None.
Proof.
  intros Hgot Hscore. unfold tick.
  destruct (wr _ _ _) as [buf|]; [cbn|reflexivity].
  destruct (rd buf (to_u8 _)); [cbn|reflexivity].
  destruct (set_bitmap_one _ _); [cbn|reflexivity].
  rewrite Hgot, Hscore. reflexivity.
Qed.

Lemma playable_tick (rand_value : Z) (st st' : game) :
  playable st -> 0 <= rand_value -> tick rand_value st = Some st' ->
  playable st'.
Proof.
  intros [Hwf Hrows Hscore Hbound Hplay Heaten Hdir Hbody] Hrnd Htick.
  pose proof (body_length_pos st) as Hlen.
  pose proof Hwf as [_ Hbuf Hh Ht Hrow].
  assert (Hhead : LOWER_BITS (to_u8 (current_head st)) < 8)
    by (by rewrite LOWER_BITS_to_u8).
  destruct (got_apple st) eqn:Hgot.
  - destruct (Z.eq_dec (current_score st) 64) as [H64|H64];
      [by rewrite tick_at_full_score in Htick|].
    destruct (tick_grow rand_value st Hwf Hgot Hrnd)
      as (st1 & Htick1 & Hwf1 & Hs1 & Hh1 & Ht1 & Hc1 & Hg1 & Hb1 & Hd1 & Hbuf1 & Ha1);
      [lia|].
    rewrite Htick in Htick1. injection Htick1 as <-.
    unfold body_length, SNAKE_LEN in *.
    destruct (body_length_grow _ _ Hh Ht) as [Hgrow _]; [lia|].
    constructor; unfold body_length, SNAKE_LEN;
      rewrite ?Hh1, ?Ht1, ?Hc1, ?Hg1, ?Hs1, ?Hb1, ?Hd1, ?Hgrow; try done; try lia.
    rewrite Hbuf1. apply rows_ok_extend; try done. lia.
  - destruct (Hrows 0) as (tail & Htail & Htrow); [lia|].
    unfold SNAKE_LEN in Htail. rewrite Z.add_0_r, Z.mod_small in Htail by lia.
    destruct (tick_move rand_value st tail Hwf Hgot Htail Htrow)
      as (st1 & Htick1 & Hwf1 & Hs1 & Hh1 & Ht1 & Hc1 & Hg1 & Ha1 & Hb1 & Hd1 & _ & _ & _ & Hbuf1);
      [lia|].
    rewrite Htick in Htick1. injection Htick1 as <-.
    unfold body_length, SNAKE_LEN in *.
    constructor; unfold body_length, SNAKE_LEN;
      rewrite ?Hh1, ?Ht1, ?Hc1, ?Hg1, ?Hs1, ?Hb1, ?Hd1, ?body_length_move;
      try done; try lia.
    rewrite Hbuf1. apply rows_ok_shift; [done|].
    apply rows_ok_extend; try done. lia.
Qed.

(** A pass in Playing keeps the game playable. *)
Lemma playable_pass (inp : inputs) (st st' : game) :
  playable st -> state st = PLAYING -> inputs_ok inp ->
  loop_body inp st = Some st' -> playable st'.
Proof.
  intros Hpl Hst [Hd Hrnd] Hpass. unfold loop_body in Hpass.
  rewrite Hst in Hpass. cbn in Hpass. unfold playing in Hpass.
  assert (Hrest : forall st1, playable st1 -> state st1 = PLAYING ->
            (if in_tick inp then tick (in_rand inp) (apple_check st1)
             else Some (apple_check st1)) = Some st' -> playable st').
  { intros st1 Hpl1 Hst1 Hend.
    pose proof (playable_apple_check st1 Hpl1 Hst1) as Hpl2.
    destruct (in_tick inp).
    - by eapply playable_tick.
    - by injection Hend as <-. }
  destruct (in_direction inp) as [d|].
  - destruct (direction_event d st) as [st1|] eqn:Hev; [cbn in Hpass|discriminate].
    apply (Hrest st1); [by eapply playable_direction_event| |done].
    destruct (direction_event_total d st (pl_wf _ Hpl)) as (st2 & Hev2 & _ & _ & _ & Hs2 & _).
    rewrite Hev in Hev2. injection Hev2 as <-. congruence.
  - cbn in Hpass. by apply (Hrest st).
Qed.

Lemma on_course_pass (inp : inputs) (st st' : game) :
  on_course st -> inputs_ok inp -> loop_body inp st = Some st' ->
  on_course st'.
Proof.
  intros [(junk & -> & Hh & Hlen)|[Hns Hpl]] Hinp Hpass; right.
  - destruct (setup_game_from_zero inp junk Hh Hlen)
      as (st0 & Hsetup & Hwf & Hst & _ & Hh0 & Ht0 & Hb0 & Hc0 & Ha0 & Hd0 & Hbd0 & Hs0 & Hf0).
    rewrite Hpass in Hsetup. injection Hsetup as <-.
    split; [by rewrite Hst|]. intros _.
    assert (Hone : body_length st' = 1)
      by (unfold body_length; by rewrite Hh0, Ht0).
    constructor; rewrite ?Hone, ?Hf0, ?Hs0, ?Hd0, ?Hbd0; try done.
    + intros k Hk. replace k with 0 by lia. rewrite Ht0.
      exists (TO_COORDINATES 4 1). split; [done|reflexivity].
    + by left.
    + by left.
  - destruct (Z.eq_dec (state st) PLAYING) as [Hst|Hst].
    + assert (Hpl' : playable st') by (by eapply playable_pass; eauto).
      split; [|done]. unfold loop_body in Hpass. rewrite Hst in Hpass.
      cbn in Hpass.
      destruct (playing_leaves_only_by_score inp st st' Hst Hpass)
        as [->|[-> _]]; discriminate.
    + unfold loop_body in Hpass.
      destruct (Z.eqb_spec (state st) MAIN_MENU);
        [injection Hpass as <-; split; [done|by intros ?]|].
      destruct (Z.eqb_spec (state st) SETUP_GAME); [done|].
      destruct (Z.eqb_spec (state st) PLAYING); [done|].
      destruct (Z.eqb_spec (state st) GAME_OVER_TRANS).
      * injection Hpass as <-. split; discriminate.
      * injection Hpass as <-. split; [done|by intros ?].
Qed.

(** X15: from a start with [head_idx] at zero, with the buttons sending
    directions and [rand()] nonnegative values, every state the task reaches
    in Playing is playable: the arrays and indices are in range, the stored
    cells lie in the eight rows, the stored body is one or two cells shorter
    than the score, and the score is at most 63. *)
Lemma playable_reached (junk : game) (inps : list inputs) (st : game) :
  head_idx junk = 0 -> length (snake_buf junk) = 64%nat ->
  Forall inputs_ok inps ->
  GameLogicTask junk inps = Some st -> state st = PLAYING -> playable st.
Proof.
  intros Hh Hlen Hinps Hrun Hst. unfold GameLogicTask in Hrun.
  assert (Hcourse : on_course (power_on junk)) by (left; eauto).
  revert Hcourse Hrun. generalize (power_on junk).
  induction Hinps as [|inp inps Hinp _ IH]; intros st0 Hcourse Hrun.
  - injection Hrun as ->. destruct Hcourse as [(j & -> & _)|[_ Hpl]]; [discriminate|auto].
  - cbn [run] in Hrun.
    destruct (loop_body inp st0) as [st1|] eqn:Hpass; [cbn in Hrun|discriminate].
    apply (IH st1); [by eapply on_course_pass|done].
Qed.

Lemma playable_reached_witness : playable after_first_tick.
Proof.
  apply (playable_reached zeroed [idle; ticking 0]).
  - reflexivity.
  - reflexivity.
  - repeat constructor; cbn; lia.
  - reflexivity.
  - reflexivity.
Defined.

(** So every state reached in Playing meets what the theorems on a button
    press and on a tick ask of it. *)
Lemma playable_meets_hypotheses (st : game) :
  playable st ->
  wf st /\ body_length st < 64 /\ is_direction (body_direction st)
  /\ exists tail, rd (snake_buf st) (tail_idx st) = Some tail
                  /\ LOWER_BITS tail < 8.
Proof.
  intros [Hwf Hrows Hscore Hbound _ _ _ Hbody].
  pose proof (body_length_pos st) as Hlen.
  split; [done|]. split; [destruct (got_apple st); lia|]. split; [done|].
  destruct (Hrows 0) as (tail & Htail & Hrow); [lia|].
  exists tail. split; [|done]. destruct Hwf as [_ _ _ Ht _].
  unfold SNAKE_LEN in Htail. by rewrite Z.add_0_r, Z.mod_small in Htail by lia.
Qed.

(** * Further properties *)

(** ** Bits of the rows *)

Lemma mask_bits (u i : Z) :
  0 <= i -> Z.testbit (Z.shiftl 1 u) i = (i =? u).
Proof.
  intros Hi. rewrite Z.shiftl_spec by lia.
  destruct (Z.eqb_spec i u) as [->|Hne].
  - by rewrite Z.sub_diag.
  - destruct (Z.lt_ge_cases i u).
    + apply Z.testbit_neg_r. lia.
    + apply Z.bits_above_log2; simpl; lia.
Qed.

Lemma row_set_bits (row u i : Z) :
  0 <= i ->
  Z.testbit (to_u8 (Z.lor row (Z.shiftl 1 u))) i
  = (i <? 8) && (Z.testbit row i || (i =? u)).
Proof. intros Hi. by rewrite to_u8_bits, Z.lor_spec, mask_bits. Qed.

Lemma row_clear_bits (row u i : Z) :
  0 <= i ->
  Z.testbit (to_u8 (Z.land row (Z.lnot (Z.shiftl 1 u)))) i
  = (i <? 8) && (Z.testbit row i && negb (i =? u)).
Proof.
  intros Hi. by rewrite to_u8_bits, Z.land_spec, Z.lnot_spec, mask_bits.
Qed.

Lemma rd_None_insert (a : list Z) (i j v : Z) :
  rd a j = None -> rd (<[Z.to_nat i := v]> a) j = None.
Proof.
  unfold rd. destruct (Z.ltb_spec j 0); [done|].
  rewrite !lookup_ge_None, length_insert. done.
Qed.

(** A bit of the screen after [set_bitmap_one]. *)
Lemma cell_bit_after_one (g g1 : list Z) (c c' : Z) :
  set_bitmap_one g c = Some g1 -> 0 <= UPPER_BITS c' < 8 ->
  cell_bit g1 c' =
    cell_bit g c'
    || ((UPPER_BITS c' =? UPPER_BITS c) && (LOWER_BITS c' =? LOWER_BITS c)).
Proof.
  intros Hset Hx. unfold set_bitmap_one in Hset.
  destruct (rd g (LOWER_BITS c)) as [row|] eqn:Hrow; [cbn in Hset|discriminate].
  apply wr_inv in Hset as [Hin ->]. unfold cell_bit.
  destruct (Z.eqb_spec (LOWER_BITS c') (LOWER_BITS c)) as [->|Hne].
  - rewrite rd_insert_eq, Hrow, row_set_bits by lia.
    destruct (Z.ltb_spec (UPPER_BITS c') 8); [|lia]. btauto.
  - rewrite rd_insert_ne by lia. rewrite andb_false_r, orb_false_r. done.
Qed.

(** A bit of the screen after [set_bitmap_zero]. *)
Lemma cell_bit_after_zero (g g0 : list Z) (c c' : Z) :
  set_bitmap_zero g c = Some g0 -> 0 <= UPPER_BITS c' < 8 ->
  cell_bit g0 c' =
    cell_bit g c'
    && negb ((UPPER_BITS c' =? UPPER_BITS c) && (LOWER_BITS c' =? LOWER_BITS c)).
Proof.
  intros Hset Hx. unfold set_bitmap_zero in Hset.
  destruct (rd g (LOWER_BITS c)) as [row|] eqn:Hrow; [cbn in Hset|discriminate].
  apply wr_inv in Hset as [Hin ->]. unfold cell_bit.
  destruct (Z.eqb_spec (LOWER_BITS c') (LOWER_BITS c)) as [->|Hne].
  - rewrite rd_insert_eq, Hrow, row_clear_bits by lia.
    destruct (Z.ltb_spec (UPPER_BITS c') 8); [|lia]. btauto.
  - rewrite rd_insert_ne by lia. rewrite andb_false_r. cbn. by rewrite andb_true_r.
Qed.

(** X1: on a bitmap of eight rows and for a cell of the screen,
    [set_bitmap_one] sets the bit of that cell and leaves the bit of every
    other cell of the screen as it was. *)
Theorem set_bitmap_one_sets_one_bit (g : list Z) (c : Z) :
  length g = 8%nat -> LOWER_BITS c < 8 -> 0 <= UPPER_BITS c < 8 ->
  exists g1, set_bitmap_one g c = Some g1
    /\ cell_bit g1 c = true
    /\ forall c', 0 <= UPPER_BITS c' < 8 ->
         UPPER_BITS c' <> UPPER_BITS c \/ LOWER_BITS c' <> LOWER_BITS c ->
         cell_bit g1 c' = cell_bit g c'.
Proof.
  intros Hlen Hy Hx.
  destruct (set_bitmap_one_total g c Hlen Hy) as (g1 & Hset & _).
  exists g1. split; [done|]. split.
  - rewrite (cell_bit_after_one _ _ _ _ Hset Hx), !Z.eqb_refl. btauto.
  - intros c' Hx' Hne. rewrite (cell_bit_after_one _ _ _ _ Hset Hx').
    destruct (Z.eqb_spec (UPPER_BITS c') (UPPER_BITS c)),
             (Z.eqb_spec (LOWER_BITS c') (LOWER_BITS c)); cbn; try btauto.
    lia.
Qed.

Lemma set_bitmap_one_sets_one_bit_witness :
  exists g1, set_bitmap_one [0; 16; 16; 0; 0; 0; 0; 16] (TO_COORDINATES 5 2) = Some g1
    /\ cell_bit g1 (TO_COORDINATES 5 2) = true
    /\ forall c', 0 <= UPPER_BITS c' < 8 ->
         UPPER_BITS c' <> UPPER_BITS (TO_COORDINATES 5 2)
         \/ LOWER_BITS c' <> LOWER_BITS (TO_COORDINATES 5 2) ->
         cell_bit g1 c' = cell_bit [0; 16; 16; 0; 0; 0; 0; 16] c'.
Proof.
  apply (set_bitmap_one_sets_one_bit [0; 16; 16; 0; 0; 0; 0; 16] (TO_COORDINATES 5 2));
    evaluated.
Defined.

(** X2: on a bitmap of eight rows and for a coordinate whose y-component is
    below 8, [set_bitmap_zero] clears the bit of that cell and leaves the bit
    of every other cell of the screen as it was. *)
Theorem set_bitmap_zero_clears_one_bit (g : list Z) (c : Z) :
  length g = 8%nat -> LOWER_BITS c < 8 ->
  exists g0, set_bitmap_zero g c = Some g0
    /\ cell_bit g0 c = false
    /\ forall c', 0 <= UPPER_BITS c' < 8 ->
         UPPER_BITS c' <> UPPER_BITS c \/ LOWER_BITS c' <> LOWER_BITS c ->
         cell_bit g0 c' = cell_bit g c'.
Proof.
  intros Hlen Hy.
  destruct (set_bitmap_zero_total g c Hlen Hy) as (g0 & Hset & _).
  exists g0. split; [done|]. split; [by eapply cell_bit_cleared|].
  intros c' Hx' Hne. rewrite (cell_bit_after_zero _ _ _ _ Hset Hx').
  destruct (Z.eqb_spec (UPPER_BITS c') (UPPER_BITS c)),
           (Z.eqb_spec (LOWER_BITS c') (LOWER_BITS c)); cbn; try btauto.
  lia.
Qed.

Lemma set_bitmap_zero_clears_one_bit_witness :
  exists g0, set_bitmap_zero [0; 16; 16; 0; 0; 0; 0; 16] (TO_COORDINATES 4 2) = Some g0
    /\ cell_bit g0 (TO_COORDINATES 4 2) = false
    /\ forall c', 0 <= UPPER_BITS c' < 8 ->
         UPPER_BITS c' <> UPPER_BITS (TO_COORDINATES 4 2)
         \/ LOWER_BITS c' <> LOWER_BITS (TO_COORDINATES 4 2) ->
         cell_bit g0 c' = cell_bit [0; 16; 16; 0; 0; 0; 0; 16] c'.
Proof.
  apply (set_bitmap_zero_clears_one_bit [0; 16; 16; 0; 0; 0; 0; 16] (TO_COORDINATES 4 2));
    evaluated.
Defined.

Lemma row_one_then_zero (row m : Z) :
  to_u8 (Z.land (to_u8 (Z.lor row m)) (Z.lnot m)) = to_u8 (Z.land row (Z.lnot m)).
Proof.
  apply Z.bits_inj'. intros i Hi.
  rewrite !to_u8_bits, !Z.land_spec, to_u8_bits, Z.lor_spec, !Z.lnot_spec by lia.
  btauto.
Qed.

Lemma row_zero_then_one (row m : Z) :
  to_u8 (Z.lor (to_u8 (Z.land row (Z.lnot m))) m) = to_u8 (Z.lor row m).
Proof.
  apply Z.bits_inj'. intros i Hi.
  rewrite !to_u8_bits, !Z.lor_spec, to_u8_bits, Z.land_spec, !Z.lnot_spec by lia.
  btauto.
Qed.

(** Setting a cell and then clearing it is clearing it; clearing and then
    setting is setting. *)
Lemma one_then_zero (g : list Z) (c : Z) :
  set_bitmap_one g c ≫= (fun g1 => set_bitmap_zero g1 c) = set_bitmap_zero g c.
Proof.
  destruct (rd g (LOWER_BITS c)) as [row|] eqn:Hrow.
  - pose proof (rd_Some_lt _ _ _ Hrow) as Hin.
    rewrite (set_bitmap_one_Some _ _ _ Hrow), (set_bitmap_zero_Some _ _ _ Hrow). cbn.
    erewrite set_bitmap_zero_Some by (apply rd_insert_eq; lia).
    by rewrite list_insert_insert_eq, row_one_then_zero.
  - unfold set_bitmap_one, set_bitmap_zero. by rewrite Hrow.
Qed.

Lemma zero_then_one (g : list Z) (c : Z) :
  set_bitmap_zero g c ≫= (fun g0 => set_bitmap_one g0 c) = set_bitmap_one g c.
Proof.
  destruct (rd g (LOWER_BITS c)) as [row|] eqn:Hrow.
  - pose proof (rd_Some_lt _ _ _ Hrow) as Hin.
    rewrite (set_bitmap_one_Some _ _ _ Hrow), (set_bitmap_zero_Some _ _ _ Hrow). cbn.
    erewrite set_bitmap_one_Some by (apply rd_insert_eq; lia).
    by rewrite list_insert_insert_eq, row_zero_then_one.
  - unfold set_bitmap_one, set_bitmap_zero. by rewrite Hrow.
Qed.

Lemma set_bitmap_one_again (g g1 : list Z) (c : Z) :
  set_bitmap_one g c = Some g1 -> set_bitmap_one g1 c = Some g1.
Proof.
  intros Hset. destruct (rd g (LOWER_BITS c)) as [row|] eqn:Hrow.
  - pose proof (rd_Some_lt _ _ _ Hrow) as Hin.
    rewrite (set_bitmap_one_Some _ _ _ Hrow) in Hset. injection Hset as <-.
    erewrite set_bitmap_one_Some by (apply rd_insert_eq; lia).
    by rewrite list_insert_insert_eq, set_one_twice.
  - unfold set_bitmap_one in Hset. by rewrite Hrow in Hset.
Qed.

(** X3: setting a cell and then clearing it leaves the bitmap that clearing
    alone leaves, and clearing then setting the one that setting alone
    leaves, whatever the bitmap and the coordinate. *)
Theorem set_and_clear_last_wins (g : list Z) (c : Z) :
  set_bitmap_one g c ≫= (fun g1 => set_bitmap_zero g1 c) = set_bitmap_zero g c
  /\ set_bitmap_zero g c ≫= (fun g0 => set_bitmap_one g0 c) = set_bitmap_one g c.
Proof. split; [apply one_then_zero|apply zero_then_one]. Qed.

(** The byte a row holds after two updates with masks that share no bit. *)
Lemma rows_commute (row u1 u2 : Z) :
  u1 <> u2 ->
  to_u8 (Z.land (to_u8 (Z.lor row (Z.shiftl 1 u1))) (Z.lnot (Z.shiftl 1 u2)))
  = to_u8 (Z.lor (to_u8 (Z.land row (Z.lnot (Z.shiftl 1 u2)))) (Z.shiftl 1 u1)).
Proof.
  intros Hne. apply Z.bits_inj'. intros i Hi.
  rewrite to_u8_bits, Z.land_spec, row_set_bits, Z.lnot_spec, mask_bits by lia.
  rewrite to_u8_bits, Z.lor_spec, row_clear_bits, mask_bits by lia.
  destruct (Z.eqb_spec i u1), (Z.eqb_spec i u2); try lia; btauto.
Qed.

(** X4: drawing one cell and erasing another can be done in either order. *)
Theorem set_one_zero_commute (g : list Z) (c1 c2 : Z) :
  UPPER_BITS c1 <> UPPER_BITS c2 \/ LOWER_BITS c1 <> LOWER_BITS c2 ->
  set_bitmap_one g c1 ≫= (fun g' => set_bitmap_zero g' c2)
  = set_bitmap_zero g c2 ≫= (fun g' => set_bitmap_one g' c1).
Proof.
  intros Hne.
  pose proof (LOWER_BITS_range c1) as Hr1. pose proof (LOWER_BITS_range c2) as Hr2.
  destruct (rd g (LOWER_BITS c1)) as [row1|] eqn:Hrow1;
    destruct (rd g (LOWER_BITS c2)) as [row2|] eqn:Hrow2.
  - pose proof (rd_Some_lt _ _ _ Hrow1) as Hin1.
    pose proof (rd_Some_lt _ _ _ Hrow2) as Hin2.
    rewrite (set_bitmap_one_Some _ _ _ Hrow1), (set_bitmap_zero_Some _ _ _ Hrow2). cbn.
    destruct (Z.eq_dec (LOWER_BITS c1) (LOWER_BITS c2)) as [Hy|Hy].
    + assert (row2 = row1) as -> by congruence.
      erewrite set_bitmap_zero_Some by (rewrite <- Hy; apply rd_insert_eq; lia).
      erewrite set_bitmap_one_Some by (rewrite Hy; apply rd_insert_eq; lia).
      rewrite Hy, !list_insert_insert_eq. do 2 f_equal.
      apply rows_commute. lia.
    + erewrite set_bitmap_zero_Some by (rewrite rd_insert_ne by lia; exact Hrow2).
      erewrite set_bitmap_one_Some by (rewrite rd_insert_ne by lia; exact Hrow1).
      f_equal. apply list_insert_insert_ne. lia.
  - rewrite (set_bitmap_one_Some _ _ _ Hrow1). cbn.
    unfold set_bitmap_zero. by rewrite rd_None_insert, Hrow2.
  - unfold set_bitmap_one at 1. rewrite Hrow1. cbn.
    destruct (set_bitmap_zero g c2) as [g'|] eqn:Hz; [cbn|done].
    rewrite (set_bitmap_zero_Some _ _ _ Hrow2) in Hz. injection Hz as <-.
    unfold set_bitmap_one. by rewrite rd_None_insert.
  - unfold set_bitmap_one at 1, set_bitmap_zero at 2. by rewrite Hrow1, Hrow2.
Qed.

Lemma set_one_zero_commute_witness :
  set_bitmap_one [0; 16; 16; 0; 0; 0; 0; 16] (TO_COORDINATES 5 2)
    ≫= (fun g' => set_bitmap_zero g' (TO_COORDINATES 4 2))
  = set_bitmap_zero [0; 16; 16; 0; 0; 0; 0; 16] (TO_COORDINATES 4 2)
    ≫= (fun g' => set_bitmap_one g' (TO_COORDINATES 5 2)).
Proof.
  apply (set_one_zero_commute [0; 16; 16; 0; 0; 0; 0; 16]
           (TO_COORDINATES 5 2) (TO_COORDINATES 4 2)).
  left. discriminate.
Defined.

Lemma to_u8_byte (v : Z) : 0 <= v < 256 -> to_u8 v = v.
Proof. intros Hv. unfold to_u8. by apply Z.mod_small. Qed.

Lemma byte_high_bits (v i : Z) : 0 <= v < 256 -> 8 <= i -> Z.testbit v i = false.
Proof.
  intros Hv Hi. rewrite <- (to_u8_byte v Hv), to_u8_bits.
  destruct (Z.ltb_spec i 8); [lia|done].
Qed.

(** X5: a coordinate whose x-component is 8 or more names no bit of a row:
    on a bitmap of bytes both functions return the bitmap unchanged. *)
Theorem off_screen_column_not_drawn (g : list Z) (c row : Z) :
  rd g (LOWER_BITS c) = Some row -> 0 <= row < 256 -> 8 <= UPPER_BITS c ->
  set_bitmap_one g c = Some g /\ set_bitmap_zero g c = Some g.
Proof.
  intros Hrow Hbyte Hx.
  assert (Hl : g !! Z.to_nat (LOWER_BITS c) = Some row).
  { unfold rd in Hrow. by destruct (LOWER_BITS c <? 0). }
  rewrite (set_bitmap_one_Some _ _ _ Hrow), (set_bitmap_zero_Some _ _ _ Hrow).
  split; f_equal; apply list_insert_id; rewrite Hl; f_equal;
    apply Z.bits_inj'; intros i Hi.
  - rewrite row_set_bits by done. destruct (Z.ltb_spec i 8); cbn.
    + destruct (Z.eqb_spec i (UPPER_BITS c)); [lia|]. by rewrite orb_false_r.
    + by rewrite byte_high_bits.
  - rewrite row_clear_bits by done. destruct (Z.ltb_spec i 8); cbn.
    + destruct (Z.eqb_spec i (UPPER_BITS c)); [lia|]. by rewrite andb_true_r.
    + by rewrite byte_high_bits.
Qed.

Lemma off_screen_column_not_drawn_witness :
  set_bitmap_one [0; 128; 0; 0; 0; 0; 0; 16] (TO_COORDINATES 8 1)
    = Some [0; 128; 0; 0; 0; 0; 0; 16]
  /\ set_bitmap_zero [0; 128; 0; 0; 0; 0; 0; 16] (TO_COORDINATES 8 1)
    = Some [0; 128; 0; 0; 0; 0; 0; 16].
Proof.
  apply (off_screen_column_not_drawn [0; 128; 0; 0; 0; 0; 0; 16]
           (TO_COORDINATES 8 1) 128); evaluated.
Defined.

(** ** More on [place_new_head] *)

(** X6: whatever byte and direction value it is given, [place_new_head]
    returns a byte whose y-component is below 8 and whose x-component is at
    most 8. *)
Theorem place_new_head_near_screen (old_head d : Z) :
  0 <= place_new_head old_head d < 256
  /\ 0 <= LOWER_BITS (place_new_head old_head d) < 8
  /\ 0 <= UPPER_BITS (place_new_head old_head d) <= 8.
Proof.
  split; [|apply place_new_head_range].
  unfold place_new_head. apply to_u8_range.
Qed.

(** X8: a step in a direction followed by a step in the opposite direction
    brings a head on the screen back to its cell, except for LEFT then RIGHT
    from column 0, which ends in column 8. *)
Theorem opposite_steps_cancel (x y d : Z) :
  0 <= x < 8 -> 0 <= y < 8 -> is_direction d ->
  (~ (x = 0 /\ d = LEFT) ->
   place_new_head (place_new_head (TO_COORDINATES x y) d) (opposite d)
   = TO_COORDINATES x y)
  /\ (x = 0 -> d = LEFT ->
      place_new_head (place_new_head (TO_COORDINATES x y) d) (opposite d)
      = TO_COORDINATES 8 y).
Proof.
  intros Hx Hy Hd.
  assert (Hall : forallb (fun d => forallb (fun x => forallb (fun y =>
            let back := place_new_head (place_new_head (TO_COORDINATES x y) d)
                                       (opposite d) in
            if (x =? 0) && (d =? LEFT) then back =? TO_COORDINATES 8 y
            else back =? TO_COORDINATES x y)
            (seqZ 0 8)) (seqZ 0 8)) [UP; DOWN; RIGHT; LEFT] = true)
    by (vm_compute; reflexivity).
  rewrite forallb_forall in Hall.
  assert (Hin : In d [UP; DOWN; RIGHT; LEFT])
    by (unfold is_direction in Hd; simpl; intuition).
  pose proof (range_check _ _ (range_check _ _ (Hall d Hin) x Hx) y Hy) as Hok.
  cbv zeta in Hok. split.
  - intros Hne.
    destruct (Z.eqb_spec x 0), (Z.eqb_spec d LEFT); cbn [andb] in Hok;
      apply Z.eqb_eq in Hok; [tauto|done..].
  - intros -> ->. change ((0 =? 0) && (LEFT =? LEFT)) with true in Hok.
    by apply Z.eqb_eq in Hok.
Qed.

Lemma opposite_steps_cancel_witness :
  place_new_head (place_new_head (TO_COORDINATES 7 3) RIGHT) (opposite RIGHT)
    = TO_COORDINATES 7 3
  /\ place_new_head (place_new_head (TO_COORDINATES 0 3) LEFT) (opposite LEFT)
    = TO_COORDINATES 8 3.
Proof.
  split.
  - apply (proj1 (opposite_steps_cancel 7 3 RIGHT ltac:(lia) ltac:(lia)
                    (or_intror (or_intror (or_introl eq_refl))))).
    intros [H _]. discriminate H.
  - apply (proj2 (opposite_steps_cancel 0 3 LEFT ltac:(lia) ltac:(lia)
                    (or_intror (or_intror (or_intror eq_refl))))); reflexivity.
Defined.

(** X9: a head in column 7 moving RIGHT goes to column 8, and the next step
    RIGHT brings it back to column 7 of the same row: it never reaches
    column 0. *)
Theorem right_edge_bounce (y : Z) :
  0 <= y < 8 ->
  place_new_head (TO_COORDINATES 7 y) RIGHT = TO_COORDINATES 8 y
  /\ place_new_head (TO_COORDINATES 8 y) RIGHT = TO_COORDINATES 7 y.
Proof.
  intros Hy.
  assert (Hall : forallb (fun y =>
            (place_new_head (TO_COORDINATES 7 y) RIGHT =? TO_COORDINATES 8 y)
            && (place_new_head (TO_COORDINATES 8 y) RIGHT =? TO_COORDINATES 7 y))
            (seqZ 0 8) = true) by (vm_compute; reflexivity).
  pose proof (range_check _ _ Hall y Hy) as Hok. cbn beta in Hok.
  apply andb_prop in Hok as [H1 H2]. lia.
Qed.

Lemma right_edge_bounce_witness :
  place_new_head (TO_COORDINATES 7 1) RIGHT = TO_COORDINATES 8 1
  /\ place_new_head (TO_COORDINATES 8 1) RIGHT = TO_COORDINATES 7 1.
Proof. apply (right_edge_bounce 1). lia. Defined.

(** X10: a direction value that is none of the four codes leaves a head on the
    screen where it is. *)
Theorem unknown_direction_stays (x y d : Z) :
  0 <= x < 8 -> 0 <= y < 8 -> ~ is_direction d ->
  place_new_head (TO_COORDINATES x y) d = TO_COORDINATES x y.
Proof.
  intros Hx Hy Hd.
  assert (Hsame : place_new_head (TO_COORDINATES x y) d
                  = place_new_head (TO_COORDINATES x y) 0).
  { unfold place_new_head, is_direction in *.
    destruct (Z.eqb_spec d RIGHT); [tauto|]. destruct (Z.eqb_spec d LEFT); [tauto|].
    destruct (Z.eqb_spec d UP); [tauto|]. destruct (Z.eqb_spec d DOWN); [tauto|].
    reflexivity. }
  rewrite Hsame.
  assert (Hall : forallb (fun x => forallb (fun y =>
            place_new_head (TO_COORDINATES x y) 0 =? TO_COORDINATES x y)
            (seqZ 0 8)) (seqZ 0 8) = true) by (vm_compute; reflexivity).
  pose proof (range_check _ _ (range_check _ _ Hall x Hx) y Hy) as Hok.
  cbn beta in Hok. lia.
Qed.

Lemma unknown_direction_stays_witness :
  place_new_head (TO_COORDINATES 4 1) 3 = TO_COORDINATES 4 1.
Proof.
  apply (unknown_direction_stays 4 1 3); [lia|lia|].
  intros [H | [H | [H | H]]]; discriminate H.
Defined.

(** ** Where [place_apple] can land *)

Section Landing.

Variable g : list Z.
Hypothesis Hlen : length g = 8%nat.

(** One row of the scan in closed form: column 0 counts only when the row is
    empty, columns 1 to 8 always count. *)
Lemma scan_row_closed (y r row : Z) :
  0 <= y < 8 -> rd g y = Some row -> 0 <= r < 256 ->
  scan_row g y (seqZ 0 (SCREEN_WIDTH + 1)) r =
    Some (let r1 := if r =? 0 then 0 else if row =? 0 then r - 1 else r in
          if r1 =? 0 then Placed (to_u8 (TO_COORDINATES 0 y))
          else if r1 <=? 8 then Placed (to_u8 (TO_COORDINATES r1 y))
          else Running (r1 - 8)).
Proof.
  intros Hy Hrow Hr.
  change (seqZ 0 (SCREEN_WIDTH + 1)) with (0 :: seqZ 1 8).
  assert (Hrest : forall r1, 0 < r1 < 256 ->
            scan_row g y (seqZ 1 8) r1 =
              Some (if r1 <=? 8 then Placed (to_u8 (TO_COORDINATES r1 y))
                    else Running (r1 - 8))).
  { intros r1 Hr1.
    rewrite (scan_row_counted g Hlen y (seqZ 1 8)
               (fun x Hx => check_bitmap_other_columns g Hlen x y Hy
                  ltac:(apply elem_of_seqZ in Hx; lia)) r1 Hr1).
    destruct (Z.leb_spec r1 8).
    - rewrite lookup_seqZ_lt by lia.
      by replace (1 + Z.of_nat (Z.to_nat (r1 - 1))) with r1 by lia.
    - rewrite lookup_seqZ_ge by lia. reflexivity. }
  remember (seqZ 1 8) as rest eqn:Erest. clear Erest.
  cbn [scan_row]. cbv zeta. destruct (Z.eqb_spec r 0) as [->|Hnz].
  - reflexivity.
  - destruct (coords_unpack 0 y) as (Hu & Hl & _); [lia..|].
    rewrite (check_bitmap_value g _ row) by (by rewrite Hl). rewrite Hu. cbn.
    destruct (Z.eqb_spec row 0) as [->|Hrnz]; cbn.
    + rewrite (to_u8_byte (r - 1)) by lia. unfold c_not at 1.
      destruct (Z.eqb_spec (r - 1) 0); cbn; [done|]. by rewrite Hrest by lia.
    + unfold c_not at 1. destruct (Z.eqb_spec r 0); [done|]. cbn.
      by rewrite Hrest by lia.
Qed.

Lemma scan_rows_landing (ys : list Z) :
  (forall y, y ∈ ys -> 0 <= y < 8) ->
  forall r, 0 <= r <= 8 * Z.of_nat (length ys) -> r < 256 -> ys <> [] ->
  exists c, scan_rows g ys (seqZ 0 (SCREEN_WIDTH + 1)) r = Some (Placed c)
    /\ 0 <= LOWER_BITS c < 8 /\ 0 <= UPPER_BITS c <= 8
    /\ (UPPER_BITS c = 0 -> r = 0 \/ rd g (LOWER_BITS c) = Some 0).
Proof.
  induction ys as [|y ys IH]; intros Hys r Hr Hbyte Hne; [done|].
  assert (Hy : 0 <= y < 8) by (apply Hys; left).
  destruct (rd_defined g y) as [row Hrow]; [lia|].
  assert (Hcell : forall x, 0 <= x <= 8 ->
            LOWER_BITS (to_u8 (TO_COORDINATES x y)) = y
            /\ UPPER_BITS (to_u8 (TO_COORDINATES x y)) = x).
  { intros x Hx. destruct (coords_unpack x y) as (? & ? & _); [lia..|done]. }
  simpl in Hr. cbn [scan_rows]. rewrite (scan_row_closed y r row) by (done || lia).
  cbv zeta. destruct (Z.eqb_spec r 0) as [->|Hnz].
  { cbn. destruct (Hcell 0) as [Hl Hu]; [lia|].
    eexists. split; [reflexivity|]. rewrite Hl, Hu. repeat split; lia. }
  set (r1 := if row =? 0 then r - 1 else r).
  assert (Hr1 : r - 1 <= r1 <= r) by (subst r1; destruct (row =? 0); lia).
  destruct (Z.eqb_spec r1 0) as [H0|H0].
  { cbn. destruct (Hcell 0) as [Hl Hu]; [lia|].
    eexists. split; [reflexivity|]. rewrite Hl, Hu. repeat split; try lia.
    intros _. right. subst r1. destruct (Z.eqb_spec row 0); [by subst|lia]. }
  destruct (Z.leb_spec r1 8).
  { cbn. destruct (Hcell r1) as [Hl Hu]; [lia|].
    eexists. split; [reflexivity|]. rewrite Hl, Hu. repeat split; lia. }
  cbn. destruct (IH (fun y' Hy' => Hys y' (list_elem_of_further _ _ _ Hy')) (r1 - 8))
    as (c & Hc & Hrowc & Hcolc & Hzero); [lia|lia| |].
  { intros ->. simpl in Hr. lia. }
  exists c. split; [done|]. split; [done|]. split; [done|].
  intros Hu. destruct (Hzero Hu) as [?|?]; [lia|by right].
Qed.

Lemma place_apple_landing (rand_value old score : Z) :
  0 <= rand_value -> 0 <= score < 64 ->
  exists c, place_apple rand_value g old score = Some c
    /\ 0 <= LOWER_BITS c < 8 /\ 0 <= UPPER_BITS c <= 8
    /\ (UPPER_BITS c = 0 ->
        (Z.rem rand_value (64 - score) = 0 /\ c = 0)
        \/ rd g (LOWER_BITS c) = Some 0).
Proof.
  intros Hrnd Hscore.
  destruct (Z.eq_dec (Z.rem rand_value (64 - score)) 0) as [H0|H0].
  { rewrite place_apple_rand_zero by (done || lia).
    exists 0. split; [done|]. repeat split; try done. auto. }
  unfold place_apple.
  replace (SCREEN_HEIGHT * SCREEN_WIDTH - 1 - score + 1) with (64 - score)
    by (unfold SCREEN_HEIGHT, SCREEN_WIDTH; lia).
  destruct (Z.eqb_spec (64 - score) 0); [lia|].
  pose proof (Z.rem_bound_pos rand_value (64 - score)) as Hrem.
  rewrite to_u8_byte by lia.
  change (seqZ 0 (SCREEN_HEIGHT + 1)) with (seqZ 0 8 ++ [8]).
  destruct (scan_rows_landing (seqZ 0 8)) with (r := Z.rem rand_value (64 - score))
    as (c & Hc & Hrow & Hcol & Hzero).
  - intros y [? ?]%elem_of_seqZ. lia.
  - rewrite length_seqZ. lia.
  - lia.
  - discriminate.
  - rewrite (scan_rows_app_placed _ _ _ _ _ _ Hc). cbn.
    exists c. split; [done|]. split; [done|]. split; [done|].
    intros Hu. destruct (Hzero Hu); [lia|by right].
Qed.

End Landing.

(** X11: with a bitmap of eight rows, a score from 0 to 63 and a nonnegative
    [rand()], [place_apple] always writes a cell, in rows 0 to 7 and columns
    0 to 8. *)
Theorem place_apple_lands_near_screen (rand_value : Z) (g : list Z)
    (old score : Z) :
  length g = 8%nat -> 0 <= rand_value -> 0 <= score < 64 ->
  exists c, place_apple rand_value g old score = Some c
    /\ 0 <= LOWER_BITS c < 8 /\ 0 <= UPPER_BITS c <= 8.
Proof.
  intros Hlen Hrnd Hscore.
  destruct (place_apple_landing g Hlen rand_value old score Hrnd Hscore)
    as (c & Hc & Hrow & Hcol & _).
  eauto.
Qed.

Lemma place_apple_lands_near_screen_witness :
  exists c, place_apple 6000 [16; 0; 0; 0; 0; 0; 16; 16] 255 3 = Some c
    /\ 0 <= LOWER_BITS c < 8 /\ 0 <= UPPER_BITS c <= 8.
Proof.
  apply (place_apple_lands_near_screen 6000 [16; 0; 0; 0; 0; 0; 16; 16] 255 3);
    [reflexivity|lia|lia].
Defined.

(** X12: a cell of column 0 is written only when its whole row is empty, or
    when it is (0,0) and [rand() % n] is 0: a free cell of column 0 in a row
    that holds any set bit is never chosen otherwise. *)
Theorem place_apple_column_zero (rand_value : Z) (g : list Z)
    (old score c : Z) :
  length g = 8%nat -> 0 <= rand_value -> 0 <= score < 64 ->
  place_apple rand_value g old score = Some c -> UPPER_BITS c = 0 ->
  (Z.rem rand_value (64 - score) = 0 /\ c = 0)
  \/ rd g (LOWER_BITS c) = Some 0.
Proof.
  intros Hlen Hrnd Hscore Hplace Hu.
  destruct (place_apple_landing g Hlen rand_value old score Hrnd Hscore)
    as (c' & Hc & _ & _ & Hzero).
  rewrite Hplace in Hc. injection Hc as <-. auto.
Qed.

Lemma place_apple_column_zero_witness :
  (Z.rem 9 (64 - 3) = 0 /\ TO_COORDINATES 0 1 = 0)
  \/ rd [16; 0; 0; 0; 0; 0; 16; 16] (LOWER_BITS (TO_COORDINATES 0 1)) = Some 0.
Proof.
  apply (place_apple_column_zero 9 [16; 0; 0; 0; 0; 0; 16; 16] 255 3);
    [reflexivity|lia|lia|reflexivity|reflexivity].
Defined.

(** ** The passes of the task, read backwards *)

Lemma direction_event_fields (d : Z) (st st' : game) :
  direction_event d st = Some st' ->
  exists g1 old,
    set_bitmap_zero (game_bitmap st) (current_head st) = Some g1
    /\ rd (snake_buf st) (head_idx st) = Some old
    /\ set_bitmap_one g1 (place_new_head old (direction st')) = Some (game_bitmap st')
    /\ direction st' = (if valid_turn (body_direction st) d then d
                        else direction st)
    /\ current_head st' = place_new_head old (direction st')
    /\ state st' = state st /\ snake_buf st' = snake_buf st
    /\ head_idx st' = head_idx st /\ tail_idx st' = tail_idx st
    /\ apple st' = apple st /\ current_score st' = current_score st
    /\ got_apple st' = got_apple st
    /\ body_direction st' = body_direction st.
Proof.
  unfold direction_event. intros Hev.
  destruct (set_bitmap_zero _ _) as [g1|]; [cbn in Hev|discriminate].
  destruct (rd (snake_buf st) _) as [old|]; [cbn in Hev|discriminate].
  destruct (set_bitmap_one _ _) as [g2|] eqn:Hone; [cbn in Hev|discriminate].
  injection Hev as <-. exists g1, old. cbn. repeat split; done.
Qed.

Lemma tick_fields (r : Z) (st st' : game) :
  tick r st = Some st' ->
  state st' = state st /\ current_score st' = current_score st
  /\ direction st' = direction st /\ body_direction st' = direction st
  /\ got_apple st' = false.
Proof.
  unfold tick. intros Ht.
  destruct (wr _ _ _) as [buf|]; [cbn in Ht|discriminate].
  destruct (rd buf (to_u8 _)); [cbn in Ht|discriminate].
  destruct (set_bitmap_one _ _); [cbn in Ht|discriminate].
  destruct (got_apple st) eqn:Hgot; cbn in Ht.
  - destruct (place_apple _ _ _ _); [cbn in Ht|discriminate].
    destruct (set_bitmap_one _ _); [cbn in Ht|discriminate].
    injection Ht as <-. done.
  - destruct (rd buf _); [cbn in Ht|discriminate].
    destruct (set_bitmap_zero _ _); [cbn in Ht|discriminate].
    injection Ht as <-. done.
Qed.

Lemma setup_game_fields (st st' : game) :
  setup_game st = Some st' ->
  state st' = PLAYING /\ direction st' = UP /\ body_direction st' = UP
  /\ current_score st' = 2 /\ apple st' = TO_COORDINATES 4 7.
Proof.
  unfold setup_game. intros Hs.
  destruct (clear_rows _ _) as [g0|]; [cbn [mbind option_bind] in Hs|discriminate].
  destruct (wr _ _ _) as [buf|]; [cbn [mbind option_bind] in Hs|discriminate].
  destruct (rd buf 0) as [start|]; [cbn [mbind option_bind] in Hs|discriminate].
  destruct (set_bitmap_one g0 start) as [g1|]; [cbn [mbind option_bind] in Hs|discriminate].
  destruct (rd buf (head_idx st)) as [old|]; [cbn [mbind option_bind] in Hs|discriminate].
  destruct (set_bitmap_one g1 _) as [g2|]; [cbn [mbind option_bind] in Hs|discriminate].
  destruct (set_bitmap_one g2 _) as [g3|]; [cbn [mbind option_bind] in Hs|discriminate].
  injection Hs as <-. done.
Qed.

Lemma apple_check_fields (st : game) :
  direction (apple_check st) = direction st
  /\ body_direction (apple_check st) = body_direction st
  /\ (current_score (apple_check st) = current_score st
      \/ current_score (apple_check st) = to_u8 (current_score st + 1)).
Proof.
  unfold apple_check. destruct (current_head st =? apple st); cbn; auto.
Qed.

(** A pass in Playing, split into its three blocks. *)
Lemma playing_blocks (inp : inputs) (st st' : game) :
  playing inp st = Some st' ->
  exists st1,
    match in_direction inp with
    | Some d => direction_event d st
    | None => Some st
    end = Some st1
    /\ (if in_tick inp then tick (in_rand inp) (apple_check st1)
        else Some (apple_check st1)) = Some st'.
Proof.
  unfold playing. intros Hpass.
  destruct (match in_direction inp with Some d => _ | None => _ end) as [st1|];
    [cbn in Hpass|discriminate].
  eauto.
Qed.

(** ** The states the task goes through *)

Lemma loop_body_state (inp : inputs) (st st' : game) :
  loop_body inp st = Some st' ->
  (state st = SETUP_GAME -> state st' = PLAYING)
  /\ (state st = PLAYING ->
      state st' = PLAYING \/ state st' = GAME_OVER_TRANS)
  /\ (state st = GAME_OVER_TRANS -> st' = set_state GAME_OVER_MENU st)
  /\ (state st <> SETUP_GAME -> state st <> PLAYING ->
      state st <> GAME_OVER_TRANS -> st' = st).
Proof.
  unfold loop_body. intros Hpass.
  destruct (Z.eqb_spec (state st) MAIN_MENU) as [Hm|Hm].
  { injection Hpass as <-. rewrite Hm. repeat split; try done. }
  destruct (Z.eqb_spec (state st) SETUP_GAME) as [Hs|Hs].
  { apply setup_game_fields in Hpass as [-> _]. rewrite Hs.
    repeat split; try done. }
  destruct (Z.eqb_spec (state st) PLAYING) as [Hp|Hp].
  { destruct (playing_leaves_only_by_score _ _ _ Hp Hpass) as [->|[-> _]];
      rewrite Hp; repeat split; try done; auto. }
  destruct (Z.eqb_spec (state st) GAME_OVER_TRANS) as [Ht|Ht];
    injection Hpass as <-; repeat split; try done.
Qed.

(** X17: from its start the task is in SETUP_GAME before the first pass and
    never again; afterwards it is in PLAYING, GAME_OVER_TRANS or
    GAME_OVER_MENU.  The main menu and the two hi-score states are never
    entered. *)
Theorem states_reached (junk : game) (inps : list inputs) (st : game) :
  GameLogicTask junk inps = Some st ->
  (inps = [] /\ state st = SETUP_GAME)
  \/ (inps <> [] /\ (state st = PLAYING \/ state st = GAME_OVER_TRANS
                     \/ state st = GAME_OVER_MENU)).
Proof.
  unfold GameLogicTask.
  assert (Hlater : forall inps st0 st1,
            state st0 = PLAYING \/ state st0 = GAME_OVER_TRANS
            \/ state st0 = GAME_OVER_MENU ->
            run inps st0 = Some st1 ->
            state st1 = PLAYING \/ state st1 = GAME_OVER_TRANS
            \/ state st1 = GAME_OVER_MENU).
  { clear. induction inps as [|inp inps IH]; intros st0 st1 Hst Hrun.
    - by injection Hrun as <-.
    - cbn [run] in Hrun.
      destruct (loop_body inp st0) as [st'|] eqn:Hpass; [cbn in Hrun|discriminate].
      apply (IH st' st1); [|done].
      destruct (loop_body_state _ _ _ Hpass) as (_ & Hp & Ht & Hm).
      destruct Hst as [Hst|[Hst|Hst]].
      + destruct (Hp Hst); auto.
      + rewrite (Ht Hst). auto.
      + rewrite Hm; rewrite ?Hst; auto; discriminate. }
  destruct inps as [|inp inps]; intros Hrun.
  - left. by injection Hrun as <-.
  - right. split; [done|]. cbn [run] in Hrun.
    destruct (loop_body inp (power_on junk)) as [st'|] eqn:Hpass;
      [cbn in Hrun|discriminate].
    apply (Hlater inps st' st); [|done].
    destruct (loop_body_state _ _ _ Hpass) as (Hs & _). left. by apply Hs.
Qed.

Lemma states_reached_witness :
  ([idle; ticking 0] = [] /\ state after_first_tick = SETUP_GAME)
  \/ ([idle; ticking 0] <> []
      /\ (state after_first_tick = PLAYING
          \/ state after_first_tick = GAME_OVER_TRANS
          \/ state after_first_tick = GAME_OVER_MENU)).
Proof. apply (states_reached zeroed [idle; ticking 0]). reflexivity. Defined.

(** X18: the end of a game is final.  From GAME_OVER_TRANS the next pass
    changes the state to GAME_OVER_MENU and nothing else, and from
    GAME_OVER_MENU no pass changes anything, whatever the buttons and the
    clock deliver: the bitmap stays as the game left it and no new game
    starts. *)
Theorem game_over_is_final (st : game) (inp : inputs) (inps : list inputs) :
  (state st = GAME_OVER_TRANS ->
   run (inp :: inps) st = Some (set_state GAME_OVER_MENU st))
  /\ (state st = GAME_OVER_MENU -> run inps st = Some st).
Proof.
  assert (Hmenu : forall l s, state s = GAME_OVER_MENU -> run l s = Some s).
  { induction l as [|i l IH]; intros s Hs; [done|].
    cbn [run]. unfold loop_body. rewrite Hs. cbn. by apply IH. }
  split; [|apply Hmenu].
  intros Hs. cbn [run]. unfold loop_body. rewrite Hs. cbn.
  by apply Hmenu.
Qed.

Lemma game_over_is_final_witness :
  run [pressing LEFT; ticking 7] (set_state GAME_OVER_TRANS after_setup)
    = Some (set_state GAME_OVER_MENU (set_state GAME_OVER_TRANS after_setup))
  /\ run [pressing LEFT; ticking 7] (set_state GAME_OVER_MENU after_setup)
    = Some (set_state GAME_OVER_MENU after_setup).
Proof.
  split.
  - apply (proj1 (game_over_is_final (set_state GAME_OVER_TRANS after_setup)
                    (pressing LEFT) [ticking 7])). reflexivity.
  - apply (proj2 (game_over_is_final (set_state GAME_OVER_MENU after_setup)
                    idle [pressing LEFT; ticking 7])). reflexivity.
Defined.

(** X19: a pass in Playing leaves Playing only for GAME_OVER_TRANS and only
    with a score of 64 or more; no collision ends the game. *)
Theorem game_ends_only_by_score (inp : inputs) (st st' : game) :
  state st = PLAYING -> loop_body inp st = Some st' ->
  state st' = PLAYING
  \/ (state st' = GAME_OVER_TRANS /\ 64 <= current_score st').
Proof.
  intros Hst Hpass. unfold loop_body in Hpass. rewrite Hst in Hpass.
  by apply (playing_leaves_only_by_score inp st).
Qed.

Lemma game_ends_only_by_score_witness :
  state after_first_tick = PLAYING
  \/ (state after_first_tick = GAME_OVER_TRANS
      /\ 64 <= current_score after_first_tick).
Proof.
  apply (game_ends_only_by_score (ticking 0) after_setup); reflexivity.
Defined.

(** X20: with a score from 0 to 63, a pass in Playing leaves the score as it
    is or adds one to it. *)
Theorem score_step (inp : inputs) (st st' : game) :
  state st = PLAYING -> 0 <= current_score st <= 63 ->
  loop_body inp st = Some st' ->
  current_score st' = current_score st
  \/ current_score st' = current_score st + 1.
Proof.
  intros Hst Hscore Hpass. unfold loop_body in Hpass. rewrite Hst in Hpass.
  cbn in Hpass. apply playing_blocks in Hpass as (st1 & Hdir & Hend).
  assert (H1 : current_score st1 = current_score st).
  { destruct (in_direction inp) as [d|]; [|congruence].
    apply direction_event_fields in Hdir
      as (? & ? & _ & _ & _ & _ & _ & _ & _ & _ & _ & _ & Hs & _). done. }
  destruct (apple_check_fields st1) as (_ & _ & H2).
  rewrite H1, (to_u8_byte (current_score st + 1)) in H2 by lia.
  destruct (in_tick inp).
  - apply tick_fields in Hend as (_ & -> & _). done.
  - by injection Hend as <-.
Qed.

Lemma score_step_witness :
  current_score after_first_tick = current_score after_setup
  \/ current_score after_first_tick = current_score after_setup + 1.
Proof.
  apply (score_step (ticking 0) after_setup); [reflexivity|cbn; lia|reflexivity].
Defined.

(** ** The snake never turns back on its neck *)

Lemma direction_not_own_opposite (d : Z) : is_direction d -> d <> opposite d.
Proof. intros [-> | [-> | [-> | ->]]]; discriminate. Qed.

Lemma heading_pass (inp : inputs) (st st' : game) :
  inputs_ok inp -> loop_body inp st = Some st' ->
  state st = SETUP_GAME \/ heading st -> heading st'.
Proof.
  intros [Hd _] Hpass Hst. pose proof Hpass as Hpass'. unfold loop_body in Hpass.
  destruct (Z.eqb_spec (state st) MAIN_MENU) as [Hm|Hm].
  { injection Hpass as <-. destruct Hst as [Hs|?]; [|done]. by rewrite Hm in Hs. }
  destruct (Z.eqb_spec (state st) SETUP_GAME) as [Hs|Hs].
  { apply setup_game_fields in Hpass as (_ & H1 & H2 & _).
    unfold heading. rewrite H1, H2. repeat split; try by left. discriminate. }
  destruct Hst as [?|(Hdir & Hbody & Hne)]; [done|].
  destruct (Z.eqb_spec (state st) PLAYING) as [Hp|Hp].
  - apply playing_blocks in Hpass as (st1 & Hev & Hend).
    assert (H1 : heading st1).
    { destruct (in_direction inp) as [d|]; [|by injection Hev as <-].
      apply direction_event_fields in Hev
        as (? & ? & _ & _ & _ & Hd1 & _ & _ & _ & _ & _ & _ & _ & _ & Hb1).
      unfold heading. rewrite Hd1, Hb1.
      destruct (valid_turn (body_direction st) d) eqn:Hv; [|done].
      repeat split; try done. by apply valid_turn_opposite. }
    destruct H1 as (Hdir1 & Hbody1 & Hne1).
    destruct (apple_check_fields st1) as (Ha & Hb & _).
    destruct (in_tick inp).
    + apply tick_fields in Hend as (_ & _ & Hd' & Hb' & _).
      unfold heading. rewrite Hd', Hb', Ha.
      repeat split; try done. by apply direction_not_own_opposite.
    + injection Hend as <-. unfold heading. by rewrite Ha, Hb.
  - destruct (Z.eqb_spec (state st) GAME_OVER_TRANS);
      injection Hpass as <-; done.
Qed.

(** X16: with the buttons sending direction codes, after the setup the
    pending direction and the committed one are always direction codes, and
    the pending direction is never the reverse of the committed one. *)
Theorem never_reverses (junk : game) (inps : list inputs) (st : game) :
  Forall inputs_ok inps -> inps <> [] ->
  GameLogicTask junk inps = Some st -> heading st.
Proof.
  unfold GameLogicTask. intros Hinps Hne Hrun.
  assert (Hgen : forall st0, state st0 = SETUP_GAME \/ heading st0 ->
            run inps st0 = Some st -> state st = SETUP_GAME /\ inps = [] \/ heading st).
  { clear Hrun Hne. induction Hinps as [|inp inps Hinp _ IH]; intros st0 Hst Hrun.
    - injection Hrun as <-. destruct Hst; auto.
    - right. cbn [run] in Hrun.
      destruct (loop_body inp st0) as [st1|] eqn:Hpass; [cbn in Hrun|discriminate].
      pose proof (heading_pass _ _ _ Hinp Hpass Hst) as H1.
      destruct (IH st1 (or_intror H1) Hrun) as [[_ ->]|?]; [|done].
      by injection Hrun as <-. }
  by destruct (Hgen (power_on junk) (or_introl eq_refl) Hrun) as [[_ ?]|?].
Qed.

Lemma never_reverses_witness : heading after_first_tick.
Proof.
  apply (never_reverses zeroed [idle; ticking 0]).
  - repeat constructor; cbn; lia.
  - discriminate.
  - reflexivity.
Defined.

(** ** A press repeated before the tick *)

(** X22: receiving the same direction value in two passes with no tick in
    between leaves the game as receiving it once. *)
Theorem repeated_press (d : Z) (st : game) :
  direction_event d st ≫= direction_event d = direction_event d st.
Proof.
  destruct (direction_event d st) as [st1|] eqn:Hev; [cbn|done].
  pose proof (direction_event_fields _ _ _ Hev)
    as (g1 & old & Hz & Hold & Hone & Hdir & Hhead & Hst & Hbuf & Hh & Ht & Ha
        & Hs & Hg & Hb).
  rewrite <- Hhead in Hone.
  assert (Hclear : set_bitmap_zero (game_bitmap st1) (current_head st1)
                   ≫= (fun g0 => set_bitmap_one g0 (current_head st1))
                   = Some (game_bitmap st1)).
  { rewrite zero_then_one. by eapply set_bitmap_one_again. }
  unfold direction_event.
  destruct (set_bitmap_zero (game_bitmap st1) (current_head st1)) as [g3|];
    [cbn in Hclear|discriminate].
  cbn. rewrite Hbuf, Hh, Hold. cbn.
  assert (Hsame : (if valid_turn (body_direction st1) d then d else direction st1)
                  = direction st1).
  { rewrite Hb, Hdir. by destruct (valid_turn _ _). }
  rewrite Hsame, <- Hhead, Hclear. cbn.
  destruct st1. cbn in *. by subst.
Qed.

(** ** The display and the buttons *)

Lemma cell_bit_coords (g : list Z) (x y : Z) :
  0 <= x < 16 -> 0 <= y < 16 ->
  cell_bit g (TO_COORDINATES x y)
  = match rd g y with Some row => Z.testbit row x | None => false end.
Proof.
  intros Hx Hy. destruct (coords_unpack x y Hx Hy) as (Hu & Hl & Hb).
  rewrite Hb in Hu, Hl. unfold cell_bit. by rewrite Hu, Hl.
Qed.

Lemma display_rows_calls (g : list Z) (idxs : list Z) (calls : list setRow) :
  display_rows g idxs = Some calls ->
  length calls = length idxs
  /\ forall k i, idxs !! k = Some i ->
       exists v, rd g i = Some v /\ calls !! k = Some (SetRow 0 i v).
Proof.
  revert calls. induction idxs as [|i idxs IH]; intros calls Hd; cbn [display_rows] in Hd.
  - injection Hd as <-. split; [done|]. intros k j Hk. done.
  - destruct (rd g i) as [v|] eqn:Hv; [cbn [mbind option_bind] in Hd|discriminate].
    destruct (display_rows g idxs) as [rest|]; [cbn in Hd|discriminate].
    injection Hd as <-. destruct (IH rest eq_refl) as [Hlen Hcalls].
    split; [cbn; by rewrite Hlen|].
    intros [|k] j Hk; cbn in Hk.
    + injection Hk as <-. eauto.
    + by apply Hcalls.
Qed.

Lemma display_rows_total (g : list Z) (idxs : list Z) :
  (forall i, i ∈ idxs -> 0 <= i < Z.of_nat (length g)) ->
  exists calls, display_rows g idxs = Some calls.
Proof.
  induction idxs as [|i idxs IH]; intros Hin; cbn [display_rows]; [eauto|].
  destruct (rd_defined g i) as [v ->]; [apply Hin; by left|].
  destruct IH as [rest ->]; [intros; apply Hin; by right|].
  cbn. eauto.
Qed.

(** X23: one pass of the display task hands the driver eight rows, row [y]
    in the [y]-th call, and bit [x] of that row is the bit of the cell
    (x,y) as [set_bitmap_one] and [set_bitmap_zero] keep it. *)
Theorem frame_shows_cells (g : list Z) :
  length g = 8%nat ->
  exists calls, DisplayGameTask g = Some calls
    /\ length calls = 8%nat
    /\ forall x y, 0 <= x < 8 -> 0 <= y < 8 ->
         exists v, calls !! Z.to_nat y = Some (SetRow 0 y v)
                   /\ Z.testbit v x = cell_bit g (TO_COORDINATES x y).
Proof.
  intros Hlen. unfold DisplayGameTask.
  destruct (display_rows_total g (seqZ 0 SCREEN_WIDTH)) as [calls Hd].
  { intros i [? ?]%elem_of_seqZ. unfold SCREEN_WIDTH in *. lia. }
  destruct (display_rows_calls _ _ _ Hd) as [Hl Hcalls].
  exists calls. split; [done|]. split; [by rewrite Hl|].
  intros x y Hx Hy.
  destruct (Hcalls (Z.to_nat y) y) as (v & Hv & Hcall).
  { rewrite lookup_seqZ. unfold SCREEN_WIDTH. lia. }
  exists v. split; [done|]. rewrite cell_bit_coords by lia. by rewrite Hv.
Qed.

Lemma frame_shows_cells_witness :
  exists calls, DisplayGameTask [0; 16; 16; 0; 0; 0; 0; 16] = Some calls
    /\ length calls = 8%nat
    /\ forall x y, 0 <= x < 8 -> 0 <= y < 8 ->
         exists v, calls !! Z.to_nat y = Some (SetRow 0 y v)
                   /\ Z.testbit v x
                      = cell_bit [0; 16; 16; 0; 0; 0; 0; 16] (TO_COORDINATES x y).
Proof. apply (frame_shows_cells [0; 16; 16; 0; 0; 0; 0; 16]). reflexivity. Defined.

(** X24: a button task compares the time with the time of its start, not of
    its last send: every pass later than 200 ms after the start (and before
    the 32-bit difference wraps) that finds the pin low sends the task's
    direction, and no pass sends within the first 200 ms. *)
Theorem held_button_sends_every_pass (d start : Z) (polls : list (Z * Z)) :
  0 <= start < 2 ^ 32 ->
  (Forall (fun poll => fst poll = 0
                       /\ start + 200 < snd poll < 2 ^ 32) polls ->
   button_task (button_pass d) start polls = replicate (length polls) d)
  /\ (Forall (fun poll => start <= snd poll <= start + 200) polls ->
      button_task (button_pass d) start polls = []).
Proof.
  intros Hstart. unfold button_task. split; intros Hall.
  - induction Hall as [|[pin now] polls [Hpin Hnow] _ IH]; [done|].
    cbn in *. rewrite IH. unfold button_pass at 1. subst pin.
    unfold to_u32. rewrite Z.mod_small by lia.
    change (negb (c_not 0 =? 0)) with true. unfold DEBOUNCE_MS.
    destruct (Z.gtb_spec (now - start) 200); [done|lia].
  - induction Hall as [|[pin now] polls Hnow _ IH]; [done|].
    cbn in *. rewrite IH. unfold button_pass at 1.
    unfold to_u32. rewrite Z.mod_small by lia. unfold DEBOUNCE_MS.
    destruct (Z.gtb_spec (now - start) 200); [lia|]. by rewrite andb_false_r.
Qed.

Lemma held_button_sends_every_pass_witness :
  button_task (button_pass LEFT) 1000 [(0, 1225); (0, 1250); (0, 1275)]
    = replicate 3 LEFT
  /\ button_task (button_pass LEFT) 1000 [(0, 1025); (0, 1200)] = [].
Proof.
  split.
  - apply (proj1 (held_button_sends_every_pass LEFT 1000
                    [(0, 1225); (0, 1250); (0, 1275)] ltac:(lia))).
    repeat constructor; cbn; lia.
  - apply (proj2 (held_button_sends_every_pass LEFT 1000
                    [(0, 1025); (0, 1200)] ltac:(lia))).
    repeat constructor; cbn; lia.
Defined.

(** ** The setup *)

(** [grid_consistent] looks at the bitmap, the live cells, the head and the
    apple only. *)
Lemma grid_consistent_same (st1 st2 : game) :
  game_bitmap st1 = game_bitmap st2 -> live_cells st1 = live_cells st2 ->
  current_head st1 = current_head st2 -> apple st1 = apple st2 ->
  grid_consistent st2 -> grid_consistent st1.
Proof.
  intros Hg Hl Hh Ha Hc x y Hx Hy. rewrite Hg, Hl, Hh, Ha. by apply Hc.
Qed.

(** X13: when [head_idx] starts at zero, the first pass ends in Playing with
    the start cell (4,1) stored, the provisional head at (4,2), the apple at
    (4,7), both directions UP, a score of 2, and a bitmap whose set bits are
    exactly those three cells. *)
Theorem setup_from_zero_start (inp : inputs) (junk : game) :
  head_idx junk = 0 -> length (snake_buf junk) = 64%nat ->
  exists st, GameLogicTask junk [inp] = Some st
    /\ state st = PLAYING
    /\ live_cells st = [TO_COORDINATES 4 1]
    /\ current_head st = TO_COORDINATES 4 2
    /\ apple st = TO_COORDINATES 4 7
    /\ direction st = UP /\ body_direction st = UP
    /\ current_score st = 2
    /\ grid_consistent st.
Proof.
  intros Hh Hlen.
  destruct (setup_game_from_zero inp junk Hh Hlen)
    as (st & Hsetup & Hwf & Hst & Hg & Hh0 & Ht0 & Hb0 & Hc0 & Ha0 & Hd0 & Hbd0 & Hs0 & _).
  exists st. unfold GameLogicTask. cbn [run]. rewrite Hsetup.
  assert (Hlive : live_cells st = [TO_COORDINATES 4 1]).
  { unfold live_cells, body_length. rewrite Hh0, Ht0.
    change (seqZ 0 ((0 - 0) `mod` SNAKE_LEN + 1)) with [0].
    cbn [omap list_omap]. change ((0 + 0) `mod` SNAKE_LEN) with 0. by rewrite Hb0. }
  do 8 (split; [done|]).
  by apply (grid_consistent_same st after_setup), setup_is_consistent.
Qed.

Lemma setup_from_zero_start_witness :
  exists st, GameLogicTask zeroed [pressing LEFT] = Some st
    /\ state st = PLAYING
    /\ live_cells st = [TO_COORDINATES 4 1]
    /\ current_head st = TO_COORDINATES 4 2
    /\ apple st = TO_COORDINATES 4 7
    /\ direction st = UP /\ body_direction st = UP
    /\ current_score st = 2
    /\ grid_consistent st.
Proof. apply (setup_from_zero_start (pressing LEFT) zeroed); reflexivity. Defined.

(** ** The bitmap kept in step with the snake *)

(** Two bytes with the same column and the same row are the same cell. *)
Lemma byte_cell_eq (a b : Z) :
  0 <= a < 256 -> 0 <= b < 256 ->
  UPPER_BITS a = UPPER_BITS b -> LOWER_BITS a = LOWER_BITS b -> a = b.
Proof.
  unfold UPPER_BITS, LOWER_BITS. intros Ha Hb Hu Hl.
  rewrite !Z.shiftr_div_pow2 in Hu by lia.
  change 15 with (Z.ones 4) in Hl. rewrite !Z.land_ones in Hl by lia.
  change (2 ^ 4) with 16 in *.
  rewrite (Z.div_mod a 16), (Z.div_mod b 16) by lia. congruence.
Qed.

Lemma same_cell (c h : Z) :
  0 <= c < 256 -> 0 <= h < 256 ->
  (UPPER_BITS c =? UPPER_BITS h) && (LOWER_BITS c =? LOWER_BITS h) = true
  <-> c = h.
Proof.
  intros Hc Hh. rewrite andb_true_iff, !Z.eqb_eq. split.
  - intros [Hu Hl]. by apply byte_cell_eq.
  - by intros ->.
Qed.

(** A cell of the screen is a byte with its column below 8. *)
Lemma screen_cell (x y : Z) :
  0 <= x < 8 -> 0 <= y < 8 ->
  0 <= TO_COORDINATES x y < 256 /\ 0 <= UPPER_BITS (TO_COORDINATES x y) < 8.
Proof.
  intros Hx Hy. destruct (coords_unpack x y) as (Hu & _ & Hb); [lia..|].
  rewrite Hb in Hu. rewrite Hu. split; [|done].
  rewrite <- Hb. apply to_u8_range.
Qed.

(** The bit of a cell of the screen after the bit of the byte [h] was set,
    and after it was cleared. *)
Lemma cell_bit_one_iff (g g1 : list Z) (h x y : Z) :
  set_bitmap_one g h = Some g1 -> 0 <= h < 256 ->
  0 <= x < 8 -> 0 <= y < 8 ->
  cell_bit g1 (TO_COORDINATES x y) = true
  <-> cell_bit g (TO_COORDINATES x y) = true \/ TO_COORDINATES x y = h.
Proof.
  intros Hset Hh Hx Hy. destruct (screen_cell x y Hx Hy) as [Hc Hu].
  rewrite (cell_bit_after_one _ _ _ _ Hset Hu), orb_true_iff.
  by rewrite same_cell.
Qed.

Lemma cell_bit_zero_iff (g g0 : list Z) (h x y : Z) :
  set_bitmap_zero g h = Some g0 -> 0 <= h < 256 ->
  0 <= x < 8 -> 0 <= y < 8 ->
  cell_bit g0 (TO_COORDINATES x y) = true
  <-> cell_bit g (TO_COORDINATES x y) = true /\ TO_COORDINATES x y <> h.
Proof.
  intros Hset Hh Hx Hy. destruct (screen_cell x y Hx Hy) as [Hc Hu].
  rewrite (cell_bit_after_zero _ _ _ _ Hset Hu), andb_true_iff, negb_true_iff.
  rewrite <- (same_cell _ _ Hc Hh). by rewrite not_true_iff_false.
Qed.

Lemma place_new_head_byte (old_head d : Z) :
  0 <= place_new_head old_head d < 256.
Proof. unfold place_new_head. apply to_u8_range. Qed.

(** X25: a button press leaves the bitmap in step with the snake, the head
    and the apple whenever the provisional head it withdraws shares its cell
    with no stored cell and not with the apple. *)
Theorem press_keeps_bitmap_in_step (d : Z) (st st' : game) :
  grid_consistent st -> 0 <= current_head st < 256 ->
  current_head st ∉ live_cells st -> current_head st <> apple st ->
  direction_event d st = Some st' ->
  grid_consistent st'.
Proof.
  intros Hc Hbyte Hlive Happle Hev.
  destruct (direction_event_fields _ _ _ Hev)
    as (g1 & old & Hzero & _ & Hone & _ & Hhead & _ & Hbuf & Hhi & Hti & Hap & _).
  assert (Hcells : live_cells st' = live_cells st).
  { unfold live_cells, body_length. by rewrite Hbuf, Hhi, Hti. }
  intros x y Hx Hy. rewrite Hcells, Hap, Hhead.
  rewrite (cell_bit_one_iff _ _ _ _ _ Hone (place_new_head_byte _ _) Hx Hy).
  rewrite (cell_bit_zero_iff _ _ _ _ _ Hzero Hbyte Hx Hy).
  rewrite (Hc x y Hx Hy).
  set (c := TO_COORDINATES x y). clearbody c.
  destruct (decide (c = current_head st)) as [->|Hne]; tauto.
Qed.

Lemma press_keeps_bitmap_in_step_witness :
  exists st', direction_event LEFT after_setup = Some st'
              /\ grid_consistent st'.
Proof.
  eexists. split; [vm_compute; reflexivity|].
  apply (press_keeps_bitmap_in_step LEFT after_setup).
  - apply grid_consistentb_sound. vm_compute. reflexivity.
  - vm_compute. split; [discriminate|reflexivity].
  - apply (bool_decide_unpack _). vm_compute. reflexivity.
  - discriminate.
  - vm_compute. reflexivity.
Defined.

(** Two readings that agree on a range give the same cells over it. *)
Lemma omap_seqZ_ext {B} (f g : Z -> option B) (m n : Z) :
  (forall k, m <= k < m + n -> f k = g k) ->
  omap f (seqZ m n) = omap g (seqZ m n).
Proof.
  intros Hfg. apply list_omap_ext, Forall_Forall2_diag, Forall_forall.
  intros k Hk%elem_of_seqZ. by apply Hfg.
Qed.

Lemma omap_seqZ_shift {B} (f : Z -> option B) (n : Z) :
  omap f (seqZ 1 n) = omap (fun k => f (1 + k)) (seqZ 0 n).
Proof.
  replace (seqZ 1 n) with (Z.add 1 <$> seqZ 0 n) by apply (fmap_add_seqZ 1 0).
  induction (seqZ 0 n) as [|k l IH]; [done|].
  cbn. rewrite IH. done.
Qed.

(** The live cells after a tick with no apple taken: the tail cell is
    dropped, the head committed is added. *)
Lemma live_cells_move (buf : list Z) (h t v tail : Z) (rest : list Z) :
  length buf = 64%nat -> 0 <= h < 64 -> 0 <= t < 64 ->
  (h - t) mod 64 + 1 < 64 ->
  omap (fun k => rd buf ((t + k) mod 64)) (seqZ 0 ((h - t) mod 64 + 1))
    = tail :: rest ->
  rd buf t = Some tail
  /\ omap (fun k => rd (<[Z.to_nat ((h + 1) mod 64) := v]> buf)
                       (((t + 1) mod 64 + k) mod 64))
          (seqZ 0 ((h - t) mod 64 + 1))
     = rest ++ [v].
Proof.
  intros Hlen Hh Ht Hfull Hlive.
  set (n := (h - t) mod 64) in *.
  assert (Hn : 0 <= n < 63) by (subst n; Z.div_mod_to_equations; lia).
  rewrite seqZ_cons in Hlive by lia.
  replace (Z.succ 0) with 1 in Hlive by lia.
  replace (Z.pred (n + 1)) with n in Hlive by lia.
  cbn [omap list_omap] in Hlive.
  rewrite Z.add_0_r, Z.mod_small in Hlive by lia.
  destruct (rd_defined buf t) as [v0 Hv0]; [lia|].
  rewrite Hv0 in Hlive. injection Hlive as -> Hrest.
  split; [done|].
  rewrite (seqZ_app 0 n 1) by lia. rewrite omap_app. f_equal.
  - rewrite <- Hrest, omap_seqZ_shift. apply omap_seqZ_ext. intros k Hk.
    replace (((t + 1) mod 64 + k) mod 64) with ((t + (1 + k)) mod 64)
      by (Z.div_mod_to_equations; lia).
    apply rd_insert_ne; [|subst n; Z.div_mod_to_equations; lia].
    apply Z.mod_pos_bound. lia.
  - rewrite seqZ_cons, seqZ_nil by lia. cbn [omap list_omap].
    replace (((t + 1) mod 64 + (0 + n)) mod 64) with ((h + 1) mod 64)
      by (subst n; Z.div_mod_to_equations; lia).
    rewrite rd_insert_eq; [done|].
    rewrite Hlen. pose proof (Z.mod_pos_bound (h + 1) 64). lia.
Qed.

(** A tick with no apple taken, read backwards. *)
Lemma tick_move_fields (r : Z) (st st' : game) :
  wf st -> got_apple st = false -> body_length st < 64 ->
  tick r st = Some st' ->
  exists g1 tail,
    rd (snake_buf st) (tail_idx st) = Some tail
    /\ set_bitmap_one (game_bitmap st) (current_head st') = Some g1
    /\ set_bitmap_zero g1 tail = Some (game_bitmap st')
    /\ current_head st' = place_new_head (to_u8 (current_head st)) (direction st)
    /\ snake_buf st' = <[Z.to_nat ((head_idx st + 1) mod 64) :=
                           to_u8 (current_head st)]> (snake_buf st)
    /\ head_idx st' = (head_idx st + 1) mod 64
    /\ tail_idx st' = (tail_idx st + 1) mod 64
    /\ apple st' = apple st.
Proof.
  intros [Hg Hb Hh Ht Hrow] Hgot Hlen. unfold tick.
  rewrite (SNAKE_NEXT_byte _ Hh), (SNAKE_NEXT_byte _ Ht).
  pose proof (Z.mod_pos_bound (head_idx st + 1) 64 eq_refl) as Hh'.
  destruct (body_length_grow _ _ Hh Ht Hlen) as [_ Hne].
  rewrite wr_Some by lia. cbn [mbind option_bind].
  rewrite rd_insert_eq by lia. cbn [mbind option_bind].
  destruct (set_bitmap_one _ _) as [g1|] eqn:Hone;
    [cbn [mbind option_bind]|discriminate].
  rewrite Hgot. cbn [negb].
  rewrite rd_insert_ne by lia.
  destruct (rd (snake_buf st) (tail_idx st)) as [tail|];
    [cbn [mbind option_bind]|discriminate].
  destruct (set_bitmap_zero g1 tail) as [g2|] eqn:Hzero;
    [cbn [mbind option_bind]|discriminate].
  intros [= <-]. exists g1, tail. cbn. done.
Qed.



(** The live cells after a tick that follows an apple: the head committed
    is added, nothing is dropped. *)
Lemma live_cells_grow (buf : list Z) (h t v : Z) :
  length buf = 64%nat -> 0 <= h < 64 -> 0 <= t < 64 ->
  (h - t) mod 64 + 1 < 64 ->
  omap (fun k => rd (<[Z.to_nat ((h + 1) mod 64) := v]> buf) ((t + k) mod 64))
       (seqZ 0 (((h + 1) mod 64 - t) mod 64 + 1))
  = omap (fun k => rd buf ((t + k) mod 64)) (seqZ 0 ((h - t) mod 64 + 1))
    ++ [v].
Proof.
  intros Hlen Hh Ht Hfull.
  destruct (body_length_grow _ _ Hh Ht Hfull) as [-> _].
  set (n := (h - t) mod 64) in *.
  assert (Hn : 0 <= n < 63) by (subst n; Z.div_mod_to_equations; lia).
  rewrite (seqZ_app 0 (n + 1) 1) by lia. rewrite omap_app. f_equal.
  - apply omap_seqZ_ext. intros k Hk.
    apply rd_insert_ne; [|subst n; Z.div_mod_to_equations; lia].
    apply Z.mod_pos_bound. lia.
  - rewrite seqZ_cons, seqZ_nil by lia. cbn [omap list_omap].
    replace ((t + (0 + (n + 1))) mod 64) with ((h + 1) mod 64)
      by (subst n; Z.div_mod_to_equations; lia).
    rewrite rd_insert_eq; [done|].
    rewrite Hlen. pose proof (Z.mod_pos_bound (h + 1) 64). lia.
Qed.

(** A tick that follows an apple, read backwards. *)
Lemma tick_grow_fields (r : Z) (st st' : game) :
  wf st -> got_apple st = true ->
  tick r st = Some st' ->
  exists g1,
    set_bitmap_one (game_bitmap st) (current_head st') = Some g1
    /\ place_apple r g1 (apple st) (current_score st) = Some (apple st')
    /\ set_bitmap_one g1 (apple st') = Some (game_bitmap st')
    /\ current_head st' = place_new_head (to_u8 (current_head st)) (direction st)
    /\ snake_buf st' = <[Z.to_nat ((head_idx st + 1) mod 64) :=
                           to_u8 (current_head st)]> (snake_buf st)
    /\ head_idx st' = (head_idx st + 1) mod 64
    /\ tail_idx st' = tail_idx st.
Proof.
  intros [Hg Hb Hh Ht Hrow] Hgot. unfold tick.
  rewrite (SNAKE_NEXT_byte _ Hh).
  pose proof (Z.mod_pos_bound (head_idx st + 1) 64 eq_refl) as Hh'.
  rewrite wr_Some by lia. cbn [mbind option_bind].
  rewrite rd_insert_eq by lia. cbn [mbind option_bind].
  destruct (set_bitmap_one _ _) as [g1|] eqn:Hone;
    [cbn [mbind option_bind]|discriminate].
  rewrite Hgot. cbn [negb].
  destruct (place_apple _ _ _ _) as [c|] eqn:Hplace;
    [cbn [mbind option_bind]|discriminate].
  destruct (set_bitmap_one g1 c) as [g2|] eqn:Hone2;
    [cbn [mbind option_bind]|discriminate].
  intros [= <-]. exists g1. cbn. done.
Qed.

(** A byte is what has its column from 0 to 15. *)
Lemma column_byte (c : Z) : 0 <= UPPER_BITS c < 16 -> 0 <= c < 256.
Proof.
  unfold UPPER_BITS. rewrite Z.shiftr_div_pow2 by lia.
  change (2 ^ 4) with 16. intros Hc. Z.div_mod_to_equations. lia.
Qed.


